(** * Fantasy optimizer front end: the sortable player table, the rank
    heatmap and the back-to-back day formatter.

    The development embeds the pure parts of [players.js] (the "All
    Available Players" page) and of the table helpers of [api.js]:

    - [getRankColor], the heatmap colour of a category rank;
    - the body of [populateTableBody], which sums a player's category ranks
      into [cat_coverage_rank] and renders the rows;
    - the click handler of [addTableSorting] and the comparator of
      [sortAndRerenderTable];
    - [fetchAndDisplayData], as far as it drives the two functions above;
    - [formatBackToBackDays].

    JavaScript objects decoded from JSON are records whose optional
    properties are [option]s and whose dictionaries are [gmap]s from property
    names.  Category ranks are integers ([Z]); weekly stat projections are
    JSON decimals, held as rationals ([Q]), on which the comparisons of
    doubles are exact; the hue of the heatmap is computed in binary64. *)

From Stdlib Require Import ZArith QArith Floats Uint63 DecimalString Lia.
From stdpp Require Import gmap strings list sorting.

Local Open Scope string_scope.
Local Open Scope list_scope.
Local Open Scope Z_scope.

#[local] Set Warnings "-clear-no-such-hyp".

(** ** The fragment of JavaScript the page relies on *)

Module Js.

(** A value that may be [null], [undefined] or present, as produced by
    [projections ? projections[k] : null]. *)
Inductive maybe (A : Type) : Type :=
| Null
| Undefined
| Val (x : A).
Arguments Null {A}.
Arguments Undefined {A}.
Arguments Val {A} x.

(** Reading a property of an object that may itself be missing:
    [o ? o[k] : null]. *)
Definition get_or_null {A} (o : option (gmap string A)) (k : string) : maybe A :=
  match o with
  | None => Null
  | Some m => match m !! k with Some x => Val x | None => Undefined end
  end.

(** [v || d] on a number: [undefined] and [0] are falsy. *)
Definition or_num (v : option Z) (d : Z) : Z :=
  match v with
  | Some n => if n =? 0 then d else n
  | None => d
  end.

(** [v || d] on a string: [undefined] and the empty string are falsy. *)
Definition or_str (v : option string) (d : string) : string :=
  match v with
  | Some "" => d
  | Some s => s
  | None => d
  end.

(** [v !== undefined ? v : d]. *)
Definition defined_or {A} (v : option A) (d : A) : A :=
  match v with
  | Some x => x
  | None => d
  end.

(** [Array.prototype.includes] on an array of strings. *)
Definition includes (l : list string) (x : string) : bool :=
  existsb (String.eqb x) l.

(** [Array.prototype.indexOf]: the first index holding [x], or [-1]. *)
Fixpoint indexOf (l : list string) (x : string) : Z :=
  match l with
  | [] => -1
  | y :: l' =>
      if String.eqb y x then 0
      else let i := indexOf l' x in if i <? 0 then -1 else i + 1
  end.

(** [a[i]] for an index computed as a number. *)
Definition at_index (l : list string) (i : Z) : option string :=
  if i <? 0 then None else l !! Z.to_nat i.

(** The comparison of the operands by [>] and [<] that the comparator
    folds into [1], [-1] or [0]. *)
Definition three_way {A} (gt lt : A -> A -> bool) (x y : A) : Z :=
  if gt x y then 1 else if lt x y then -1 else 0.

Definition Q_ltb (x y : Q) : bool :=
  match Qcompare x y with Lt => true | _ => false end.

Definition compare_int : Z -> Z -> Z := three_way Z.gtb Z.ltb.
Definition compare_num : Q -> Q -> Z :=
  three_way (fun x y => Q_ltb y x) Q_ltb.
(** Strings are compared character code by character code, a proper
    prefix first. *)
Definition compare_str : string -> string -> Z :=
  three_way (fun x y => String.ltb y x) String.ltb.

(** [Array.prototype.sort] with a comparison function.  The language
    guarantees a stable sort; it is modelled by insertion from the right,
    where an element moves past exactly the elements it compares greater
    than. *)
Fixpoint insert {A} (cmp : A -> A -> Z) (x : A) (l : list A) : list A :=
  match l with
  | [] => [x]
  | y :: l' => if 0 <? cmp x y then y :: insert cmp x l' else x :: l
  end.

Definition sort {A} (cmp : A -> A -> Z) (l : list A) : list A :=
  foldr (insert cmp) [] l.

(** [x] may stand before [y]: the comparison function does not return a
    positive number. *)
Definition ordered {A} (cmp : A -> A -> Z) (x y : A) : Prop := cmp x y <= 0.

(** [String.prototype.startsWith]. *)
Fixpoint startsWith (s sep : string) : bool :=
  match sep, s with
  | EmptyString, _ => true
  | String c sep', String d s' => Ascii.eqb c d && startsWith s' sep'
  | String _ _, EmptyString => false
  end.

(** [String.prototype.split] with a non-empty separator: [skip] counts the
    characters of a separator still to be dropped, [cur] is the piece being
    read. *)
Fixpoint split_go (sep s : string) (skip : nat) (cur : string) : list string :=
  match s with
  | EmptyString => [cur]
  | String c s' =>
      match skip with
      | S k => split_go sep s' k cur
      | O =>
          if startsWith s sep
          then cur :: split_go sep s' (Nat.pred (String.length sep)) ""
          else split_go sep s' O (cur +:+ String c "")
      end
  end.

Definition split (s sep : string) : list string := split_go sep s O "".

(** [Array.prototype.join]. *)
Definition join (l : list string) (sep : string) : string :=
  String.concat sep l.

End Js.

Import Js.

(** ** Heatmap colouring ([getRankColor], in both [players.js] and [api.js]) *)

(** The inline style [background-color: hsl(hue, 70%, 85%); color: #333;]. *)
Record Style : Type := mkStyle {
  hue : float;
  saturation : Z;
  lightness : Z;
  color : string
}.

(** A rank as a double; exact on the integers the guard lets through. *)
Definition number_of_rank (rank : Z) : float :=
  PrimFloat.of_uint63 (Uint63.of_Z rank).

(** [None] is the empty string that leaves the cell unstyled. *)
Definition getRankColor (rank : maybe Z) : option Style :=
  match rank with
  | Null | Undefined => None
  | Val r =>
      if (r <? 1) || (r >? 20) then None
      else
        let hue := (120 - ((number_of_rank r - 1) * (120 / 19)))%float in
        Some (mkStyle hue 70 85 "#333")
  end.

(** ** The player table of [players.js] *)

(** A player object of the [/api/all-players] response.  [cat_coverage_rank]
    is not part of the response: [populateTableBody] adds it to the object,
    so it is [None] until the player has been rendered once. *)
Record Player : Type := mkPlayer {
  name : option string;
  team : option string;
  availability : option string;
  positions : list string;
  games_this_week : Z;
  weekly_projections : gmap string Q;
  per_game_projections : option (gmap string Z);
  cat_coverage_rank : option Z
}.

Inductive Direction : Type := asc | desc.

Record SortState : Type := mkSort {
  key : string;
  direction : Direction
}.

(** One rendered [<tr>]: the six leading cells and the stat cells, each with
    its heatmap style. *)
Record Row : Type := mkRow {
  cell_name : option string;
  cell_team : string;
  cell_status : string;
  cell_positions : list string;
  cell_games : Z;
  cell_rank : Z;
  cell_stats : list (option Style * Q)
}.

Inductive TableBody : Type :=
| NoPlayersFound
| Rows (rows : list Row).

Definition STATS_TO_DISPLAY : list string :=
  ["g"; "a"; "pts"; "ppp"; "sog"; "hit"; "blk"; "w"; "so"; "svpct"; "gaa"].

Definition STATS_FOR_HEATMAP : list string :=
  ["g"; "a"; "pts"; "ppp"; "sog"; "hit"; "blk"].

(** [ranksToSum.forEach(rankStat => totalRank += projections[rankStat] || 0)],
    started from [totalRank]. *)
Definition sum_ranks (projections : gmap string Z) (ranksToSum : list string)
    (totalRank : Z) : Z :=
  foldl (fun total rankStat => total + or_num (projections !! rankStat) 0)
        totalRank ranksToSum.

(** The value of [totalRank] that [populateTableBody] computes for a player
    (lines 104 to 118 of [players.js]). *)
Definition computeCoverageRank (player : Player) : Z :=
  let totalRank := 0 in
  match per_game_projections player with
  | Some projections =>
      if includes (positions player) "G" then
        sum_ranks projections
          ["w_cat_rank"; "so_cat_rank"; "svpct_cat_rank"; "gaa_cat_rank"]
          totalRank
      else
        sum_ranks projections
          ["g_cat_rank"; "a_cat_rank"; "pts_cat_rank"; "ppp_cat_rank";
           "hit_cat_rank"; "blk_cat_rank"; "sog_cat_rank"]
          totalRank
  | None => totalRank
  end.

(** [player.cat_coverage_rank = totalRank]: the assignment to the shared
    player object. *)
Definition set_cat_coverage_rank (player : Player) (totalRank : Z) : Player :=
  mkPlayer (name player) (team player) (availability player)
           (positions player) (games_this_week player)
           (weekly_projections player) (per_game_projections player)
           (Some totalRank).

Definition statCells (player : Player) : list (option Style * Q) :=
  map (fun stat =>
         let colorStyle :=
           if includes STATS_FOR_HEATMAP stat
           then getRankColor
                  (get_or_null (per_game_projections player)
                               (stat +:+ "_cat_rank"))
           else None in
         (colorStyle, defined_or (weekly_projections player !! stat) 0%Q))
      STATS_TO_DISPLAY.

Definition render_row (player : Player) (totalRank : Z) : Row :=
  mkRow (name player) (or_str (team player) "N/A")
        (or_str (availability player) "Rostered") (positions player)
        (games_this_week player) totalRank (statCells player).

(** [populateTableBody(table, players)]: the players as the loop leaves
    them, and the new table body. *)
Definition populateTableBody (players : list Player) : list Player * TableBody :=
  match players with
  | [] => ([], NoPlayersFound)
  | _ =>
      (map (fun player =>
              set_cat_coverage_rank player (computeCoverageRank player))
           players,
       Rows (map (fun player => render_row player (computeCoverageRank player))
                 players))
  end.

(** The click handler installed by [addTableSorting] (lines 158 to 172),
    up to the call of [sortAndRerenderTable]. *)
Definition toggleSort (currentSort : SortState) (sortKey : string) : SortState :=
  let defaultAsc :=
    ["cat_coverage_rank"; "name"; "team"; "positions"; "availability"; "gaa"] in
  let dir :=
    if String.eqb (key currentSort) sortKey then
      match direction currentSort with asc => desc | desc => asc end
    else
      if includes defaultAsc sortKey then asc else desc in
  mkSort sortKey dir.

(** [a[key]] for the four keys that are not numeric.  An array of positions
    is compared through its string form, the tags joined by commas. *)
Definition string_field (p : Player) (k : string) : option string :=
  if String.eqb k "name" then name p
  else if String.eqb k "team" then team p
  else if String.eqb k "availability" then availability p
  else if String.eqb k "positions" then Some (join (positions p) ",")
  else None.

Definition isNumeric (k : string) : bool :=
  negb (includes ["name"; "team"; "availability"; "positions"] k).

Definition inverseSortStats : list string := ["gaa"].

(** The comparison function passed to [allAvailablePlayersData.sort]. *)
Definition comparator (cfg : SortState) (a b : Player) : Z :=
  let k := key cfg in
  let comparison :=
    if String.eqb k "cat_coverage_rank" then
      compare_int (or_num (cat_coverage_rank a) 999)
                  (or_num (cat_coverage_rank b) 999)
    else if isNumeric k then
      compare_num (defined_or (weekly_projections a !! k) (-1)%Q)
                  (defined_or (weekly_projections b !! k) (-1)%Q)
    else
      compare_str (or_str (string_field a k) "")
                  (or_str (string_field b k) "") in
  let comparison :=
    if isNumeric k && includes inverseSortStats k
    then - comparison else comparison in
  match direction cfg with
  | asc => comparison
  | desc => - comparison
  end.

(** The page state: the module-level variables and the two table bodies. *)
Record Page : Type := mkPage {
  allAvailablePlayersData : list Player;
  currentSort : SortState;
  rosterTable : TableBody;
  availablePlayersTable : TableBody
}.

Definition initialPage : Page :=
  mkPage [] (mkSort "cat_coverage_rank" asc) NoPlayersFound NoPlayersFound.

(** [sortAndRerenderTable(table, { key, direction })]: sort the stored
    array in place, then render it. *)
Definition sortAndRerenderTable (page : Page) (cfg : SortState) : Page :=
  let sorted := sort (comparator cfg) (allAvailablePlayersData page) in
  let '(players, tbody) := populateTableBody sorted in
  mkPage players (currentSort page) (rosterTable page) tbody.

(** A click on the header cell whose [data-sort-key] is [sortKey]. *)
Definition headerClick (page : Page) (sortKey : string) : Page :=
  let cfg := toggleSort (currentSort page) sortKey in
  sortAndRerenderTable
    (mkPage (allAvailablePlayersData page) cfg (rosterTable page)
            (availablePlayersTable page))
    cfg.

Record Response : Type := mkResponse {
  team_roster : list Player;
  available_players : list Player
}.

(** [fetchAndDisplayData], from the decoded response on: the roster table,
    the available-players table created empty, then [addTableSorting], whose
    last statement is the initial sort. *)
Definition fetchAndDisplayData (page : Page) (data : Response) : Page :=
  let roster := snd (populateTableBody (team_roster data)) in
  let created := snd (populateTableBody []) in
  sortAndRerenderTable
    (mkPage (available_players data) (currentSort page) roster created)
    (currentSort page).

(** ** Back-to-back days ([formatBackToBackDays] of [api.js]) *)

Definition dayOrder : list string :=
  ["Mon"; "Tue"; "Wed"; "Thu"; "Fri"; "Sat"; "Sun"].

(** The value of [isB2B] for one day of the list. *)
Definition isB2B (daySet : gset string) (day : string) : bool :=
  let dayIndex := indexOf dayOrder day in
  let prevDay := if 0 <? dayIndex then at_index dayOrder (dayIndex - 1) else None in
  let nextDay := if dayIndex <? 6 then at_index dayOrder (dayIndex + 1) else None in
  match prevDay with Some d => bool_decide (d ∈ daySet) | None => false end
  || match nextDay with Some d => bool_decide (d ∈ daySet) | None => false end.

(** The days with their emphasis, before they are joined into HTML; fewer
    than two days are passed through. *)
Definition markBackToBack (days : list string) : list (string * bool) :=
  if Z.of_nat (length days) <? 2 then map (fun day => (day, false)) days
  else
    let daySet : gset string := list_to_set days in
    map (fun day => (day, isB2B daySet day)) days.

Definition formatBackToBackDays (dayString : option string) : string :=
  match dayString with
  | None | Some "" => ""
  | Some s =>
      let days := split s ", " in
      if Z.of_nat (length days) <? 2 then s
      else
        let daySet : gset string := list_to_set days in
        let formattedDays :=
          map (fun day =>
                 if isB2B daySet day then "<b>" +:+ day +:+ "</b>" else day)
              days in
        join formattedDays ", "
  end.

(** ** Vocabulary of the specification *)

(** The valid domain of the heatmap: a rank that is present and lies in
    [1..20]. *)
Definition valid_rank (rank : maybe Z) : Prop :=
  exists r, rank = Val r /\ 1 <= r <= 20.

Definition flip (d : Direction) : Direction :=
  match d with asc => desc | desc => asc end.

(** The fixed default-direction table: six keys start ascending, every
    other key descending. *)
Definition ascending_by_default : list string :=
  ["cat_coverage_rank"; "name"; "team"; "positions"; "availability"; "gaa"].

Definition default_direction (k : string) : Direction :=
  if decide (k ∈ ascending_by_default) then asc else desc.

(** The rank-stat sets of the two roles, and a player's rank for a stat
    code, an absent entry counting 0. *)
Definition goalie_stats : list string := ["w"; "so"; "svpct"; "gaa"].
Definition skater_stats : list string :=
  ["g"; "a"; "pts"; "ppp"; "hit"; "blk"; "sog"].

Definition rank_of (p : Player) (stat : string) : Z :=
  match per_game_projections p with
  | Some projections => default 0 (projections !! (stat +:+ "_cat_rank"))
  | None => 0
  end.

Definition coverage_rank_spec (p : Player) : Z :=
  let stats := if decide ("G" ∈ positions p) then goalie_stats else skater_stats in
  foldr Z.add 0 (map (rank_of p) stats).

(** [d2] comes immediately after [d1] in the canonical week; the week does
    not wrap around. *)
Definition next_day (d1 d2 : string) : Prop :=
  exists i : nat, dayOrder !! i = Some d1 /\ dayOrder !! S i = Some d2.

(** The day immediately before or immediately after [day] is in [days]. *)
Definition has_neighbour (days : list string) (day : string) : Prop :=
  exists d, d ∈ days /\ (next_day d day \/ next_day day d).

(** The HTML of one marked day. *)
Definition render_day (m : string * bool) : string :=
  if snd m then "<b>" +:+ fst m +:+ "</b>" else fst m.

(** The direction flips the sign of a comparison. *)
Definition signed (d : Direction) (c : Z) : Z :=
  match d with asc => c | desc => - c end.

(** The ordinary numeric comparison of two rows by a stat key: the weekly
    projections under the key, a missing one counting -1, compared as
    numbers, with the sign of the direction. *)
Definition stat_value (k : string) (p : Player) : Q :=
  default (-1)%Q (weekly_projections p !! k).

Definition numeric_comparison (cfg : SortState) (a b : Player) : Z :=
  signed (direction cfg)
         (compare_num (stat_value (key cfg) a) (stat_value (key cfg) b)).

(** The comparison of two rows by coverage rank without any inversion. *)
Definition rank_comparison (cfg : SortState) (a b : Player) : Z :=
  signed (direction cfg)
         (compare_int (or_num (cat_coverage_rank a) 999)
                      (or_num (cat_coverage_rank b) 999)).

(** The keys that select the numeric branch of the comparator on the
    weekly projections. *)
Definition stat_key (k : string) : Prop :=
  k <> "cat_coverage_rank" /\ k ∉ ["name"; "team"; "availability"; "positions"].

(** The comparator factors into the comparison of the two sort values and a
    sign that depends on the sort state alone. *)
Definition key_comparison (k : string) (a b : Player) : Z :=
  if String.eqb k "cat_coverage_rank" then
    compare_int (or_num (cat_coverage_rank a) 999)
                (or_num (cat_coverage_rank b) 999)
  else if isNumeric k then
    compare_num (stat_value k a) (stat_value k b)
  else
    compare_str (or_str (string_field a k) "") (or_str (string_field b k) "").

Definition sort_sign (cfg : SortState) : Z :=
  (if isNumeric (key cfg) && includes inverseSortStats (key cfg) then -1 else 1)
  * signed (direction cfg) 1.

(** What the player object holds after it has been rendered. *)
Definition ranked (p : Player) : Player :=
  set_cat_coverage_rank p (computeCoverageRank p).

(** The placement of a missing stat value as the specification words it for
    every stat key: against a present value above -1 it sorts first in
    ascending and last in descending order. *)
Definition missing_stat_first_asc_last_desc : Prop :=
  forall cfg a b v,
    stat_key (key cfg) ->
    weekly_projections a !! key cfg = None ->
    weekly_projections b !! key cfg = Some v ->
    (-1 < v)%Q ->
    comparator cfg a b = match direction cfg with asc => -1 | desc => 1 end.

(** ** Sample data *)

Definition adams : Player :=
  mkPlayer (Some "Adams") (Some "BOS") (Some "FA") ["C"; "LW"] 2
    (<["g":=(1 # 1)%Q]> (<["a":=(2 # 1)%Q]> (<["pts":=(3 # 1)%Q]> ∅)))
    (Some (<["g_cat_rank":=12]> (<["a_cat_rank":=8]> ∅)))
    None.

Definition brown : Player :=
  mkPlayer (Some "Brown") (Some "NYR") (Some "W") ["D"] 4
    (<["g":=(2 # 1)%Q]> (<["a":=(3 # 1)%Q]> (<["pts":=(5 # 1)%Q]> ∅)))
    (Some (<["g_cat_rank":=1]> ∅))
    None.

Definition cole : Player :=
  mkPlayer (Some "Cole") (Some "MTL") (Some "FA") ["G"] 3
    (<["w":=(2 # 1)%Q]> (<["gaa":=(5 # 2)%Q]> ∅))
    (Some (<["w_cat_rank":=3]> (<["so_cat_rank":=5]>
          (<["svpct_cat_rank":=2]> (<["gaa_cat_rank":=1]> ∅)))))
    None.

Definition davis : Player :=
  mkPlayer (Some "Davis") None None ["RW"] 1
    (<["pts":=(1 # 1)%Q]> ∅) None None.

Definition sample_response : Response :=
  mkResponse [cole] [adams; brown].

(** ** The free-agent table and the matchup summary of [api.js] *)

(** [String.prototype.toUpperCase], on the ASCII letters of the stat codes. *)
Definition upper_char (c : Ascii.ascii) : Ascii.ascii :=
  let n := Ascii.N_of_ascii c in
  if ((97 <=? n) && (n <=? 122))%N then Ascii.ascii_of_N (n - 32) else c.

Fixpoint toUpperCase (s : string) : string :=
  match s with
  | EmptyString => EmptyString
  | String c s' => String (upper_char c) (toUpperCase s')
  end.

(** [v || 0] on a weight. *)
Definition or_zero (v : option Q) : Q :=
  match v with
  | Some q => if Qeq_bool q 0 then 0%Q else q
  | None => 0%Q
  end.

(** A free agent of the [/api/free-agents] response: a player object with
    the two day strings the free-agent table prints. *)
Record FreeAgent : Type := mkFreeAgent {
  fa_player : Player;
  start_days : option string;
  next_week_starts : option string
}.

(** One [<tr>] of the free-agent table. *)
Record FreeAgentRow : Type := mkFreeAgentRow {
  fa_cell_name : option string;
  fa_cell_team : option string;
  fa_cell_status : string;
  fa_cell_positions : list string;
  fa_cell_games : Z;
  fa_cell_rank : Z;
  fa_cell_stats : list (option Style * Q);
  fa_cell_start_days : string;
  fa_cell_next_week_starts : string
}.

Inductive FreeAgentBody : Type :=
| NoFreeAgentsFound
| FreeAgentRows (rows : list FreeAgentRow).

(** The value of [totalRank] in [createFreeAgentTable] (lines 490 to 497 of
    [api.js]): the seven skater ranks, whatever the positions. *)
Definition freeAgentTotalRank (fa : Player) : Z :=
  let totalRank := 0 in
  match per_game_projections fa with
  | Some projections =>
      sum_ranks projections
        ["g_cat_rank"; "a_cat_rank"; "pts_cat_rank"; "ppp_cat_rank";
         "hit_cat_rank"; "blk_cat_rank"; "sog_cat_rank"]
        totalRank
  | None => totalRank
  end.

(** The stat header cells: the label and whether the category weight
    reaches 2. *)
Definition headerStats (weights : gmap string Q) : list (bool * string) :=
  map (fun stat =>
         let weight := or_zero (weights !! stat) in
         (Qle_bool 2 weight, toUpperCase stat))
      STATS_TO_DISPLAY.

Definition freeAgentRow (fa : FreeAgent) : FreeAgentRow :=
  let p := fa_player fa in
  mkFreeAgentRow (name p) (team p) (or_str (availability p) "FA")
    (positions p) (games_this_week p) (freeAgentTotalRank p) (statCells p)
    (formatBackToBackDays (start_days fa))
    (formatBackToBackDays (next_week_starts fa)).

Definition createFreeAgentTable (freeAgents : list FreeAgent)
    (weights : gmap string Q) : list (bool * string) * FreeAgentBody :=
  (headerStats weights,
   match freeAgents with
   | [] => NoFreeAgentsFound
   | _ => FreeAgentRows (map freeAgentRow freeAgents)
   end).

(** A cell of the matchup summary: a total, or the text [N/A] of a missing
    totals object. *)
Inductive Total : Type :=
| NA
| Amount (q : Q).

(** [totals ? (totals[stat] !== undefined ? totals[stat] : 0) : 'N/A']. *)
Definition read_total (totals : option (gmap string Q)) (stat : string) : Total :=
  match totals with
  | Some t => Amount (defined_or (t !! stat) 0%Q)
  | None => NA
  end.

Definition GREEN : string := "background-color: #d4edda;".
Definition RED : string := "background-color: #f8d7da;".

(** The two style strings of one pair of cells of [createSummaryTable]. *)
Definition category_styles (isInverse : bool) (t1 t2 : Total) : string * string :=
  match t1, t2 with
  | Amount a, Amount b =>
      if (negb isInverse && Q_ltb b a) || (isInverse && Q_ltb a b)
      then (GREEN, RED)
      else if (negb isInverse && Q_ltb a b) || (isInverse && Q_ltb b a)
      then (RED, GREEN)
      else ("", "")
  | _, _ => ("", "")
  end.

(** One [<tr>] of the summary: the category and the four styled cells. *)
Record SummaryRow : Type := mkSummaryRow {
  category : string;
  current1 : string * Total;
  live1 : string * Total;
  current2 : string * Total;
  live2 : string * Total
}.

Definition summaryRow (totals1Current totals1Live totals2Current totals2Live :
    option (gmap string Q)) (stat : string) : SummaryRow :=
  let inverseStats := ["gaa"] in
  let t1_current := read_total totals1Current stat in
  let t1_live := read_total totals1Live stat in
  let t2_current := read_total totals2Current stat in
  let t2_live := read_total totals2Live stat in
  let isInverse := includes inverseStats stat in
  let '(current1_style, current2_style) :=
    category_styles isInverse t1_current t2_current in
  let '(live1_style, live2_style) :=
    category_styles isInverse t1_live t2_live in
  mkSummaryRow (toUpperCase stat) (current1_style, t1_current)
    (live1_style, t1_live) (current2_style, t2_current)
    (live2_style, t2_live).

(** The body rows of [createSummaryTable]; the title and the header only
    echo the team names. *)
Definition createSummaryTable (totals1Current totals1Live totals2Current
    totals2Live : option (gmap string Q)) : list SummaryRow :=
  map (summaryRow totals1Current totals1Live totals2Current totals2Live)
      STATS_TO_DISPLAY.

(** ** The utilization table of [api.js] *)

(** An integer as a double; exact below [2^53]. *)
Definition number_of_int (z : Z) : float :=
  if z <? 0 then PrimFloat.opp (PrimFloat.of_uint63 (Uint63.of_Z (- z)))
  else PrimFloat.of_uint63 (Uint63.of_Z z).

Definition digits (n : Z) : string := NilZero.string_of_int (Z.to_int n).

(** [Number.prototype.toFixed(0)] below [10^21]: the sign, then the integer
    nearest to the magnitude of the double, the larger one of two equally
    near. *)
Definition toFixed0 (x : float) : string :=
  match Prim2SF x with
  | S754_nan => "NaN"
  | S754_infinity s => if s then "-Infinity" else "Infinity"
  | S754_zero _ => "0"
  | S754_finite s m e =>
      let n :=
        if 0 <=? e then Z.pos m * 2 ^ e
        else (2 * Z.pos m + 2 ^ (- e)) / 2 ^ (1 - e) in
      (if s then "-" else "") +:+ digits n
  end.

(** A player of the [roster_utilization] array. *)
Record RosterEntry : Type := mkRosterEntry {
  u_name : option string;
  u_positions : list string;
  u_games_this_week : Z;
  u_starts_this_week : Z;
  u_start_days : option string;
  u_team_game_days : option string
}.

(** One [<tr>] of the utilization table; [u_highlight] is the background
    colour [#fff5f5]. *)
Record UtilizationRow : Type := mkUtilizationRow {
  u_cell_name : option string;
  u_cell_positions : list string;
  u_cell_games : Z;
  u_cell_starts : Z;
  u_cell_util : string;
  u_cell_start_days : string;
  u_cell_team_game_days : string;
  u_highlight : bool
}.

Definition utilizationRow (player : RosterEntry) : UtilizationRow :=
  let games := u_games_this_week player in
  let starts := u_starts_this_week player in
  let util :=
    if 0 <? games
    then toFixed0 ((number_of_int starts / number_of_int games) * 100)%float
         +:+ "%"
    else "N/A" in
  mkUtilizationRow (u_name player) (u_positions player) games starts util
    (or_str (u_start_days player) "") (or_str (u_team_game_days player) "")
    ((0 <? games) && (starts <? games)).

(** The comparison function [(a, b) => b.starts_this_week - a.starts_this_week]. *)
Definition by_starts (a b : RosterEntry) : Z :=
  u_starts_this_week b - u_starts_this_week a.

(** [createUtilizationTable]: the roster array as the in-place sort leaves
    it, and the rows. *)
Definition createUtilizationTable (roster : list RosterEntry)
    : list RosterEntry * list UtilizationRow :=
  let sorted := sort by_starts roster in
  (sorted, map utilizationRow sorted).

(** ** Free-agent pagination ([createFreeAgentPagination], [handleFetchFreeAgents]) *)

(** The two buttons: whether each is disabled and the start index its click
    handler passes to [onPageChange]. *)
Record Pagination : Type := mkPagination {
  prev_disabled : bool;
  prev_click : Z;
  next_disabled : bool;
  next_click : Z
}.

Definition createFreeAgentPagination (startIndex resultCount : Z) : Pagination :=
  mkPagination (startIndex =? 0) (startIndex - 20)
               (resultCount <? 20) (startIndex + 20).

Inductive Button : Type := Previous | Next.

(** The start index requested by a click; a disabled button does not
    fire. *)
Definition click (p : Pagination) (b : Button) : option Z :=
  match b with
  | Previous => if prev_disabled p then None else Some (prev_click p)
  | Next => if next_disabled p then None else Some (next_click p)
  end.

(** The controls that can be on screen: [handleRunAnalysis] requests start
    index 0, a click requests the start index of its button, and each
    successful request renders the controls for its start index and for the
    number of free agents the server returned. *)
Inductive rendered : Pagination -> Prop :=
| rendered_first (free_agents : nat) :
    rendered (createFreeAgentPagination 0 (Z.of_nat free_agents))
| rendered_click (p : Pagination) (b : Button) (startIndex : Z)
    (free_agents : nat) :
    rendered p ->
    click p b = Some startIndex ->
    rendered (createFreeAgentPagination startIndex (Z.of_nat free_agents)).

(** ** Select elements, the team selectors and the transaction simulator *)

(** A [<select>]: the values of its options in order and what [.value]
    reads, the empty string when no option is selected. *)
Record Select : Type := mkSelect {
  sel_options : list string;
  sel_value : string
}.

(** [sel.value = v]: the option with that value is selected; if there is
    none, no option is. *)
Definition set_value (sel : Select) (v : string) : Select :=
  mkSelect (sel_options sel)
           (if bool_decide (v ∈ sel_options sel) then v else "").

(** [Array.prototype.find]. *)
Definition find_first {A} (f : A -> bool) (l : list A) : option A :=
  List.find f l.

(** [populateTeamSelectors] of [api.js] on the values of the two selectors;
    [teamNames] is [Object.keys(rosters)].  Both selectors get the team names
    as options. *)
Definition populateTeamSelectors (myTeamSel opponentSel : Select)
    (teamNames : list string) : Select * Select :=
  let refill (sel : Select) :=
    let currentVal := sel_value sel in
    set_value (mkSelect teamNames "") currentVal in
  let myTeamSel := refill myTeamSel in
  let opponentSel := refill opponentSel in
  if String.eqb (sel_value myTeamSel) (sel_value opponentSel)
     && (1 <? Z.of_nat (length teamNames))
  then
    let other :=
      find_first (fun name => negb (String.eqb name (sel_value myTeamSel)))
                 teamNames in
    (myTeamSel, set_value opponentSel (default "undefined" other))
  else (myTeamSel, opponentSel).

(** One row of the transaction simulator: the value of its add selector
    and its drop selector. *)
Record TransactionRow : Type := mkTransactionRow {
  add_value : string;
  drop_select : Select
}.

(** The value of an option made by [new Option(p.name, p.name)]. *)
Definition option_value (p : Player) : string := default "" (name p).

Definition has_name (n : string) (p : Player) : bool :=
  bool_decide (name p = Some n).

(** One pass of the loop body of [updateDynamicRoster] over the simulated
    roster: the drop, then the add. *)
Definition simulate_row (allFreeAgents simulatedRoster : list Player)
    (addPlayerName dropPlayerName : string) : list Player :=
  let simulatedRoster :=
    if String.eqb dropPlayerName "" then simulatedRoster
    else List.filter (fun p => negb (has_name dropPlayerName p)) simulatedRoster in
  if String.eqb addPlayerName "" then simulatedRoster
  else
    match find_first (has_name addPlayerName) allFreeAgents with
    | Some fa => simulatedRoster ++ [fa]
    | None => simulatedRoster
    end.

(** The next drop selector refilled from the simulated roster, its
    selection kept if it is still offered. *)
Definition refill_drop (simulatedRoster : list Player) (nextDropSelect : Select)
    : Select :=
  let currentSelection := sel_value nextDropSelect in
  set_value (mkSelect ("" :: map option_value simulatedRoster) "")
            currentSelection.

(** The loop of [updateDynamicRoster] from row [row] on; [rest] are the rows
    after it. *)
Fixpoint updateRows (allFreeAgents simulatedRoster : list Player)
    (row : TransactionRow) (rest : list TransactionRow) : list TransactionRow :=
  let simulatedRoster :=
    simulate_row allFreeAgents simulatedRoster
                 (add_value row) (sel_value (drop_select row)) in
  match rest with
  | [] => [row]
  | next :: rest' =>
      row :: updateRows allFreeAgents simulatedRoster
               (mkTransactionRow (add_value next)
                                 (refill_drop simulatedRoster (drop_select next)))
               rest'
  end.

(** [updateDynamicRoster]: [myRoster] is [currentRosterData[myTeam] || []],
    [rows] are the transaction rows in order. *)
Definition updateDynamicRoster (myRoster allFreeAgents : list Player)
    (rows : list TransactionRow) : list TransactionRow :=
  match rows with
  | [] => []
  | row :: rest => updateRows allFreeAgents myRoster row rest
  end.

(** ** Vocabulary of the further properties *)

(** The first total wins the category: the higher one, the lower one for
    [gaa]. *)
Definition better (stat : string) (a b : Q) : Prop :=
  if decide (stat = "gaa") then (a < b)%Q else (b < a)%Q.

(** How a pair of summary cells is shaded: green and red for a winner and a
    loser, nothing for a tie or for a missing total. *)
Definition shaded (stat : string) (c1 c2 : string * Total) : Prop :=
  (c1.1 = GREEN /\ c2.1 = RED /\
   exists a b, c1.2 = Amount a /\ c2.2 = Amount b /\ better stat a b) \/
  (c1.1 = RED /\ c2.1 = GREEN /\
   exists a b, c1.2 = Amount a /\ c2.2 = Amount b /\ better stat b a) \/
  (c1.1 = "" /\ c2.1 = "" /\
   forall a b, c1.2 = Amount a -> c2.2 = Amount b -> (a == b)%Q).

(** The summary row with the two teams exchanged. *)
Definition swap_teams (r : SummaryRow) : SummaryRow :=
  mkSummaryRow (category r) (current2 r) (live2 r) (current1 r) (live1 r).

(** The exact percentage of starts, rounded to the nearest integer, a half
    rounded up. *)
Definition rounded_percent (starts games : Z) : Z :=
  (200 * starts + games) / (2 * games).

(** The order of two rows by a stat key that a sort state asks for: values
    falling from the top of the table when the direction is descending, and
    rising when it is ascending; the other way round under [gaa]. *)
Definition stat_ordered (cfg : SortState) (a b : Player) : Prop :=
  if xorb (match direction cfg with asc => false | desc => true end)
          (String.eqb (key cfg) "gaa")
  then (stat_value (key cfg) b <= stat_value (key cfg) a)%Q
  else (stat_value (key cfg) a <= stat_value (key cfg) b)%Q.

(** * Properties *)

(** ** Generic facts about the JavaScript fragment *)

Lemma includes_true (l : list string) (x : string) :
  includes l x = true <-> x ∈ l.
Proof.
  unfold includes. rewrite existsb_exists. split.
  - intros (y & Hy & He). apply String.eqb_eq in He. subst.
    by apply list_elem_of_In.
  - intros H. exists x. split; [by apply list_elem_of_In | apply String.eqb_refl].
Qed.

Lemma includes_decide (l : list string) (x : string) :
  includes l x = bool_decide (x ∈ l).
Proof.
  apply eq_true_iff_eq. rewrite includes_true, bool_decide_eq_true. done.
Qed.

(** ** Heatmap *)

Lemma getRankColor_outside (rank : maybe Z) :
  ~ valid_rank rank -> getRankColor rank = None.
Proof.
  destruct rank as [| |r]; simpl; try done.
  intros H. destruct (Z.ltb_spec r 1) as [|Hlo]; [done|].
  rewrite Z.gtb_ltb. destruct (Z.ltb_spec 20 r) as [|Hhi]; [done|].
  exfalso. apply H. exists r. split; [done | lia].
Qed.

Lemma getRankColor_inside (r : Z) :
  1 <= r <= 20 ->
  getRankColor (Val r) =
    Some (mkStyle (120 - ((number_of_rank r - 1) * (120 / 19)))%float 70 85 "#333").
Proof.
  intros [Hlo Hhi]. simpl.
  destruct (Z.ltb_spec r 1); [lia|].
  rewrite Z.gtb_ltb. destruct (Z.ltb_spec 20 r); [lia|]. done.
Qed.

(** C5.  [getRankColor] gives no colour outside the domain [1..20], [null]
    and [undefined] included; inside it gives hue
    [120 - (rank - 1) * (120 / 19)] with saturation 70 and lightness 85.
    Rank 1 has hue 120 and rank 20 has hue 0; ranks 0 and 21 and [null]
    have no colour. *)
Theorem getRankColor_spec :
  (forall rank, ~ valid_rank rank -> getRankColor rank = None) /\
  (forall r, 1 <= r <= 20 ->
     getRankColor (Val r) =
       Some (mkStyle (120 - ((number_of_rank r - 1) * (120 / 19)))%float
                     70 85 "#333")) /\
  getRankColor (Val 1) = Some (mkStyle 120%float 70 85 "#333") /\
  getRankColor (Val 20) = Some (mkStyle 0%float 70 85 "#333") /\
  getRankColor (Val 0) = None /\
  getRankColor (Val 21) = None /\
  getRankColor Null = None /\
  getRankColor Undefined = None.
Proof.
  split; [exact getRankColor_outside|].
  split; [exact getRankColor_inside|].
  repeat split; vm_compute; reflexivity.
Qed.

Lemma getRankColor_spec_witness :
  getRankColor (Val (-3)) = None /\
  getRankColor (Val 7) =
    Some (mkStyle (120 - ((number_of_rank 7 - 1) * (120 / 19)))%float
                  70 85 "#333").
Proof.
  destruct getRankColor_spec as (Hout & Hin & _). split.
  - apply Hout. intros (r & Hr & Hlo & Hhi). injection Hr as <-. lia.
  - apply Hin. lia.
Defined.

(** ** Sort state *)

(** C4.  A click on the current key flips the direction; a click on another
    key adopts it with the direction of the default table.  From
    [{name, asc}] a click on [pts] gives [{pts, desc}] and a second click
    gives [{pts, asc}]. *)
Theorem toggleSort_spec :
  (forall (s : SortState) (k : string),
     toggleSort s k =
       mkSort k (if decide (k = key s) then flip (direction s)
                 else default_direction k)) /\
  toggleSort (mkSort "name" asc) "pts" = mkSort "pts" desc /\
  toggleSort (toggleSort (mkSort "name" asc) "pts") "pts" = mkSort "pts" asc.
Proof.
  split; [|split; reflexivity].
  intros s k. unfold toggleSort, default_direction, ascending_by_default.
  destruct (String.eqb_spec (key s) k) as [->|Hne].
  - rewrite decide_True by done. by destruct (direction s).
  - rewrite decide_False by done. rewrite includes_decide.
    unfold bool_decide. by destruct (decide_rel _ _ _).
Qed.

(** ** Coverage rank *)

(** Concatenations of string literals are evaluated in place. *)
Ltac eval_appends :=
  repeat match goal with
         | |- context [String.append ?a ?b] =>
             let r := eval vm_compute in (String.append a b) in
             change (String.append a b) with r
         end.

Lemma or_num_zero (v : option Z) : or_num v 0 = default 0 v.
Proof. destruct v as [n|]; simpl; [|done]. by destruct (Z.eqb_spec n 0). Qed.

Lemma computeCoverageRank_sum (p : Player) :
  computeCoverageRank p = coverage_rank_spec p.
Proof.
  unfold computeCoverageRank, coverage_rank_spec, rank_of.
  destruct (per_game_projections p) as [projections|].
  - rewrite includes_decide. unfold bool_decide.
    destruct (decide_rel _ _ _) as [HG|HG].
    + rewrite decide_True by done. unfold sum_ranks. simpl.
      eval_appends. rewrite !or_num_zero. lia.
    + rewrite decide_False by done. unfold sum_ranks. simpl.
      eval_appends. rewrite !or_num_zero. lia.
  - by destruct (decide ("G" ∈ positions p)).
Qed.

(** C1.  The coverage rank is the sum, over the goalie stat set when the
    positions contain [G] and over the skater stat set otherwise, of the
    [stat_cat_rank] entries of the per-game projections, an absent entry
    (or absent projections) counting 0.  A goalie with ranks 3, 5, 2 and 1
    for [w], [so], [svpct] and [gaa] gets 11 whatever else the projections
    hold. *)
Theorem computeCoverageRank_spec :
  (forall p, computeCoverageRank p = coverage_rank_spec p) /\
  (forall p projections,
     "G" ∈ positions p ->
     per_game_projections p = Some projections ->
     projections !! "w_cat_rank" = Some 3 ->
     projections !! "so_cat_rank" = Some 5 ->
     projections !! "svpct_cat_rank" = Some 2 ->
     projections !! "gaa_cat_rank" = Some 1 ->
     computeCoverageRank p = 11).
Proof.
  split; [exact computeCoverageRank_sum|].
  intros p projections HG Hp Hw Hso Hsv Hgaa.
  rewrite computeCoverageRank_sum. unfold coverage_rank_spec, rank_of.
  rewrite decide_True by done. rewrite Hp. simpl. eval_appends.
  by rewrite Hw, Hso, Hsv, Hgaa.
Qed.

Lemma computeCoverageRank_spec_witness :
  computeCoverageRank
    (mkPlayer (Some "Goalie One") (Some "BOS") (Some "FA") ["G"] 3 ∅
       (Some (<["w_cat_rank":=3]> (<["so_cat_rank":=5]>
             (<["svpct_cat_rank":=2]> (<["gaa_cat_rank":=1]>
             (<["g_cat_rank":=7]> (<["pts_cat_rank":=9]> ∅)))))))
       None) = 11.
Proof.
  eapply (proj2 computeCoverageRank_spec); [| reflexivity | | | |].
  - simpl. apply list_elem_of_here.
  - vm_compute. reflexivity.
  - vm_compute. reflexivity.
  - vm_compute. reflexivity.
  - vm_compute. reflexivity.
Defined.

(** ** Back-to-back days *)

Lemma next_day_cases (d1 d2 : string) :
  next_day d1 d2 <->
  (d1 = "Mon" /\ d2 = "Tue") \/ (d1 = "Tue" /\ d2 = "Wed") \/
  (d1 = "Wed" /\ d2 = "Thu") \/ (d1 = "Thu" /\ d2 = "Fri") \/
  (d1 = "Fri" /\ d2 = "Sat") \/ (d1 = "Sat" /\ d2 = "Sun").
Proof.
  split.
  - intros (i & H1 & H2).
    do 7 (destruct i as [|i]; [simpl in H1, H2; simplify_eq; tauto|]).
    discriminate H1.
  - intros H.
    destruct H as [[-> ->]|[[-> ->]|[[-> ->]|[[-> ->]|[[-> ->]|[-> ->]]]]]].
    + by exists 0%nat.
    + by exists 1%nat.
    + by exists 2%nat.
    + by exists 3%nat.
    + by exists 4%nat.
    + by exists 5%nat.
Qed.

Lemma next_day_irrefl (d : string) : ~ next_day d d.
Proof. rewrite next_day_cases. naive_solver. Qed.

Lemma isB2B_spec (days : list string) (day : string) :
  day ∈ dayOrder ->
  isB2B (list_to_set days) day = true <-> has_neighbour days day.
Proof.
  intros Hd. unfold has_neighbour. setoid_rewrite next_day_cases.
  unfold dayOrder in Hd.
  repeat (apply elem_of_cons in Hd as [->|Hd]);
    [..|by apply elem_of_nil in Hd];
    unfold isB2B; simpl;
    rewrite ?orb_true_iff, ?bool_decide_eq_true, ?elem_of_list_to_set;
    naive_solver.
Qed.

Lemma markBackToBack_days (days : list string) :
  map fst (markBackToBack days) = days.
Proof.
  unfold markBackToBack. destruct (_ <? _); rewrite map_map; apply map_id.
Qed.

Lemma markBackToBack_iff (days : list string) (i : nat) (day : string) (e : bool) :
  day ∈ dayOrder ->
  markBackToBack days !! i = Some (day, e) ->
  e = true <-> has_neighbour days day.
Proof.
  intros Hd. unfold markBackToBack.
  destruct (Z.ltb_spec (Z.of_nat (length days)) 2) as [Hlen|Hlen].
  - rewrite list_lookup_fmap. intros Hi.
    destruct (days !! i) as [d|] eqn:Hlk; simplify_eq/=.
    split; [done|]. intros (d & Hin & Hadj). exfalso.
    destruct days as [|d0 [|d1 days]]; simpl in Hlen; [done| |lia].
    apply list_elem_of_singleton in Hin as ->.
    apply list_lookup_singleton_Some in Hlk as [_ ->].
    destruct Hadj as [H|H]; by apply next_day_irrefl in H.
  - rewrite list_lookup_fmap. intros Hi.
    destruct (days !! i) as [d|] eqn:Hlk; simplify_eq/=.
    by apply isB2B_spec.
Qed.

Lemma append_cons (c : Ascii.ascii) (s t : string) :
  String c s +:+ t = String c (s +:+ t).
Proof. reflexivity. Qed.

Lemma append_nil_r (s : string) : s +:+ "" = s.
Proof. induction s as [|c s IH]; [done | by rewrite append_cons, IH]. Qed.

Lemma append_snoc (s t : string) (c : Ascii.ascii) :
  (s +:+ String c "") +:+ t = s +:+ String c t.
Proof. induction s as [|d s IH]; [done | by rewrite !append_cons, IH]. Qed.

Lemma split_go_length (sep s : string) (skip : nat) (cur : string) :
  (1 <= length (split_go sep s skip cur))%nat.
Proof.
  revert skip cur. induction s as [|c s IH]; intros skip cur; simpl; [lia|].
  destruct skip; [|apply IH]. case_match; simpl; [lia | apply IH].
Qed.

(** A split that yields fewer than two pieces found no separator. *)
Lemma split_go_single (sep s cur : string) :
  (length (split_go sep s 0 cur) < 2)%nat ->
  split_go sep s 0 cur = [cur +:+ s].
Proof.
  revert cur. induction s as [|c s IH]; intros cur; simpl.
  - intros _. by rewrite append_nil_r.
  - case_match; simpl.
    + pose proof (split_go_length sep s (Nat.pred (String.length sep)) ""). lia.
    + intros Hlen. rewrite IH by done. by rewrite append_snoc.
Qed.

(** [formatBackToBackDays] renders the marks of the days it splits off. *)
Lemma formatBackToBackDays_marks (s : string) :
  s <> "" ->
  formatBackToBackDays (Some s) =
    join (map render_day (markBackToBack (split s ", "))) ", ".
Proof.
  intros Hs.
  assert (formatBackToBackDays (Some s) =
            let days := split s ", " in
            if Z.of_nat (length days) <? 2 then s
            else join (map (fun day =>
                              if isB2B (list_to_set days) day
                              then "<b>" +:+ day +:+ "</b>" else day) days) ", ")
    as -> by (by destruct s).
  unfold markBackToBack. cbv zeta.
  destruct (Z.ltb_spec (Z.of_nat (length (split s ", "))) 2) as [Hlen|Hlen].
  - unfold split in *. rewrite split_go_single by lia. by simpl.
  - by rewrite map_map.
Qed.

(** C6.  A day of the canonical week is emphasized exactly when the day
    immediately before it or immediately after it, in the order Mon to Sun
    without wraparound, is among the input days.  The output keeps the
    days in order, and [formatBackToBackDays] prints these marks.
    [Sun, Mon] marks neither day; [Mon, Tue, Fri] marks Mon and Tue and not
    Fri. *)
Theorem markBackToBack_spec :
  (forall days, map fst (markBackToBack days) = days) /\
  (forall days i day e,
     day ∈ dayOrder ->
     markBackToBack days !! i = Some (day, e) ->
     e = true <-> has_neighbour days day) /\
  (forall s, s <> "" ->
     formatBackToBackDays (Some s) =
       join (map render_day (markBackToBack (split s ", "))) ", ") /\
  markBackToBack ["Sun"; "Mon"] = [("Sun", false); ("Mon", false)] /\
  markBackToBack ["Mon"; "Tue"; "Fri"] =
    [("Mon", true); ("Tue", true); ("Fri", false)] /\
  formatBackToBackDays (Some "Sun, Mon") = "Sun, Mon" /\
  formatBackToBackDays (Some "Mon, Tue, Fri") = "<b>Mon</b>, <b>Tue</b>, Fri".
Proof.
  split; [exact markBackToBack_days|].
  split; [exact markBackToBack_iff|].
  split; [exact formatBackToBackDays_marks|].
  repeat split; vm_compute; reflexivity.
Qed.

Lemma markBackToBack_spec_witness :
  true = true <-> has_neighbour ["Mon"; "Tue"; "Fri"] "Tue".
Proof.
  apply (proj1 (proj2 markBackToBack_spec) ["Mon"; "Tue"; "Fri"] 1%nat "Tue" true).
  - unfold dayOrder. apply list_elem_of_In. simpl. tauto.
  - vm_compute. reflexivity.
Defined.

(** ** The array sort *)

Section array_sort.
Context {A : Type} (cmp : A -> A -> Z).

Lemma insert_perm (x : A) (l : list A) : insert cmp x l ≡ₚ x :: l.
Proof.
  induction l as [|y l IH]; simpl; [done|].
  case_match; [|done]. rewrite IH. apply Permutation_swap.
Qed.

Lemma sort_perm (l : list A) : sort cmp l ≡ₚ l.
Proof.
  induction l as [|x l IH]; simpl; [done|].
  unfold sort in IH. by rewrite insert_perm, IH.
Qed.

Lemma sort_cons (x : A) (l : list A) :
  sort cmp (x :: l) = insert cmp x (sort cmp l).
Proof. reflexivity. Qed.

(** An element that is greater than everything in the list lands at the
    end. *)
Lemma insert_last (x : A) (l : list A) :
  Forall (fun y => 0 < cmp x y) l -> insert cmp x l = l ++ [x].
Proof.
  induction 1 as [|y l Hy _ IH]; simpl; [done|].
  destruct (Z.ltb_spec 0 (cmp x y)); [by rewrite IH | lia].
Qed.

(** An element that is not greater than the last one stays before it. *)
Lemma insert_before_last (x p : A) (l : list A) :
  cmp x p <= 0 -> insert cmp x (l ++ [p]) = insert cmp x l ++ [p].
Proof.
  intros Hxp. induction l as [|y l IH]; simpl.
  - destruct (Z.ltb_spec 0 (cmp x p)); [lia | done].
  - case_match; [by rewrite IH | done].
Qed.

(** Where no element is greater than a later one, nothing moves. *)
Lemma sort_in_order (l : list A) :
  (forall x y, x ∈ l -> y ∈ l -> cmp x y <= 0) -> sort cmp l = l.
Proof.
  induction l as [|x l IH]; intros Hle; [done|].
  rewrite sort_cons, IH.
  - destruct l as [|y l]; simpl; [done|].
    destruct (Z.ltb_spec 0 (cmp x y)) as [Hgt|]; [|done].
    assert (cmp x y <= 0) by (apply Hle; set_solver). lia.
  - intros y z Hy Hz. apply Hle; set_solver.
Qed.

(** Stability needs only that two elements tied with a third are not
    strictly ordered. *)
Hypothesis cmp_ties :
  forall x y z, cmp z x = 0 -> cmp z y = 0 -> cmp x y <= 0.

Lemma insert_filter_ties (z x : A) (l : list A) :
  filter (fun y => cmp z y = 0) (insert cmp x l) =
  filter (fun y => cmp z y = 0) (x :: l).
Proof.
  induction l as [|y l IH]; simpl; [done|].
  destruct (Z.ltb_spec 0 (cmp x y)) as [Hgt|]; [|done].
  rewrite filter_cons, IH, !filter_cons.
  destruct (decide (cmp z y = 0)) as [Hy|]; [|done].
  destruct (decide (cmp z x = 0)) as [Hx|]; [|done].
  specialize (cmp_ties x y z Hx Hy). lia.
Qed.

Lemma sort_filter_ties (z : A) (l : list A) :
  filter (fun y => cmp z y = 0) (sort cmp l) =
  filter (fun y => cmp z y = 0) l.
Proof.
  induction l as [|x l IH]; [done|].
  by rewrite sort_cons, insert_filter_ties, !filter_cons, IH.
Qed.

End array_sort.

(** ** The comparator *)

Lemma compare_int_spec (x y : Z) :
  compare_int x y = match x ?= y with Lt => -1 | Eq => 0 | Gt => 1 end.
Proof.
  unfold compare_int, three_way, Z.gtb, Z.ltb. by destruct (x ?= y).
Qed.

Lemma compare_num_spec (x y : Q) :
  compare_num x y = match (x ?= y)%Q with Lt => -1 | Eq => 0 | Gt => 1 end.
Proof.
  unfold compare_num, three_way, Q_ltb.
  rewrite <- (Qcompare_antisym x y). by destruct (x ?= y)%Q.
Qed.

Lemma compare_str_spec (x y : string) :
  compare_str x y =
    match String.compare x y with Lt => -1 | Eq => 0 | Gt => 1 end.
Proof.
  unfold compare_str, three_way, String.ltb.
  rewrite (String.compare_antisym y x). by destruct (String.compare x y).
Qed.

Lemma compare_int_zero (x y : Z) : compare_int x y = 0 <-> x = y.
Proof.
  rewrite compare_int_spec. destruct (Z.compare_spec x y); split; (lia || done).
Qed.

Lemma compare_num_zero (x y : Q) : compare_num x y = 0 <-> (x == y)%Q.
Proof.
  rewrite compare_num_spec, Qeq_alt. by destruct (x ?= y)%Q.
Qed.

Lemma string_compare_refl (x : string) : String.compare x x = Eq.
Proof.
  pose proof (String.compare_antisym x x) as H.
  destruct (String.compare x x); simpl in H; congruence.
Qed.

Lemma compare_str_zero (x y : string) : compare_str x y = 0 <-> x = y.
Proof.
  rewrite compare_str_spec. split.
  - intros H. apply String.compare_eq_iff. by destruct (String.compare x y).
  - intros ->. by rewrite string_compare_refl.
Qed.

Lemma three_way_range {A} (gt lt : A -> A -> bool) (x y : A) :
  three_way gt lt x y ∈ [-1; 0; 1].
Proof. unfold three_way. repeat case_match; set_solver. Qed.

Lemma signed_zero (d : Direction) (c : Z) : signed d c = 0 <-> c = 0.
Proof. destruct d; simpl; lia. Qed.

Lemma isNumeric_true (k : string) :
  isNumeric k = true <-> k ∉ ["name"; "team"; "availability"; "positions"].
Proof.
  unfold isNumeric. rewrite negb_true_iff, <- not_true_iff_false.
  by rewrite includes_true.
Qed.

Lemma defined_or_default {A} (v : option A) (d : A) :
  defined_or v d = default d v.
Proof. by destruct v. Qed.

(** The three branches of the comparator. *)
Lemma comparator_rank (d : Direction) (a b : Player) :
  comparator (mkSort "cat_coverage_rank" d) a b =
    rank_comparison (mkSort "cat_coverage_rank" d) a b.
Proof. reflexivity. Qed.

Lemma comparator_stat (cfg : SortState) (a b : Player) :
  stat_key (key cfg) ->
  comparator cfg a b =
    if String.eqb (key cfg) "gaa" then - numeric_comparison cfg a b
    else numeric_comparison cfg a b.
Proof.
  intros [Hrank Hnum%isNumeric_true].
  unfold comparator, numeric_comparison, stat_value, inverseSortStats.
  apply String.eqb_neq in Hrank. rewrite Hrank, Hnum. simpl.
  rewrite orb_false_r, !defined_or_default.
  destruct (String.eqb (key cfg) "gaa"), (direction cfg); simpl; lia.
Qed.

Lemma comparator_text (cfg : SortState) (a b : Player) :
  key cfg ∈ ["name"; "team"; "availability"; "positions"] ->
  comparator cfg a b =
    signed (direction cfg)
           (compare_str (or_str (string_field a (key cfg)) "")
                        (or_str (string_field b (key cfg)) "")).
Proof.
  intros Hk. unfold comparator.
  assert (isNumeric (key cfg) = false) as ->.
  { apply not_true_iff_false. rewrite isNumeric_true. intros H. exact (H Hk). }
  assert (String.eqb (key cfg) "cat_coverage_rank" = false) as ->.
  { apply String.eqb_neq. intros He. rewrite He in Hk. set_solver. }
  done.
Qed.

(** Every key falls in one of the three branches. *)
Lemma key_cases (k : string) :
  k = "cat_coverage_rank" \/ stat_key k \/
  k ∈ ["name"; "team"; "availability"; "positions"].
Proof.
  destruct (decide (k = "cat_coverage_rank")); [by left|].
  destruct (decide (k ∈ ["name"; "team"; "availability"; "positions"]));
    [by right; right | by right; left].
Qed.

Lemma comparator_range (cfg : SortState) (a b : Player) :
  comparator cfg a b ∈ [-1; 0; 1].
Proof.
  assert (forall c d, c ∈ [-1; 0; 1] -> signed d c ∈ [-1; 0; 1]) as Hs.
  { intros c [] Hc; simpl; set_solver. }
  assert (forall c, c ∈ [-1; 0; 1] -> - c ∈ [-1; 0; 1]) as Hn.
  { intros c Hc; set_solver. }
  destruct cfg as [k d].
  destruct (key_cases k) as [->|[Hk|Hk]].
  - rewrite comparator_rank. apply Hs, three_way_range.
  - rewrite comparator_stat by done.
    case_match; [apply Hn|]; apply Hs, three_way_range.
  - rewrite comparator_text by done. apply Hs, three_way_range.
Qed.

(** Two rows that tie with a third tie with each other. *)
Lemma comparator_ties (cfg : SortState) (x y z : Player) :
  comparator cfg z x = 0 -> comparator cfg z y = 0 -> comparator cfg x y = 0.
Proof.
  destruct cfg as [k d].
  destruct (key_cases k) as [->|[Hk|Hk]].
  - rewrite !comparator_rank. unfold rank_comparison.
    rewrite !signed_zero, !compare_int_zero. congruence.
  - rewrite !comparator_stat by done. unfold numeric_comparison.
    assert (forall c, - signed d c = 0 <-> c = 0) as Hneg.
    { intros c. rewrite <- (signed_zero d c). lia. }
    case_match; rewrite ?Hneg, ?signed_zero, !compare_num_zero;
      intros Hx Hy; by rewrite <- Hx, <- Hy.
  - rewrite !comparator_text by done.
    rewrite !signed_zero, !compare_str_zero. congruence.
Qed.

Lemma populateTableBody_players (players : list Player) :
  fst (populateTableBody players) = map ranked players.
Proof. by destruct players. Qed.

Lemma sortAndRerenderTable_data (page : Page) (cfg : SortState) :
  allAvailablePlayersData (sortAndRerenderTable page cfg) =
    map ranked (sort (comparator cfg) (allAvailablePlayersData page)).
Proof.
  unfold sortAndRerenderTable.
  rewrite <- populateTableBody_players.
  by destruct (populateTableBody _).
Qed.

(** C8.  The sort is stable: for any row [z], the rows that tie with [z]
    under the comparator come out of the sort in the order in which they
    went in. *)
Theorem sort_stable (cfg : SortState) (players : list Player) (z : Player) :
  filter (fun y => comparator cfg z y = 0) (sort (comparator cfg) players) =
  filter (fun y => comparator cfg z y = 0) players.
Proof.
  apply sort_filter_ties. intros x y w Hx Hy.
  by rewrite (comparator_ties cfg x y w).
Qed.

(** C10.  Where no player has a [games_this_week] entry in the weekly
    projections, the comparator under the key [games_this_week] ties every
    pair and the sort leaves the list as it is; the page then holds the
    players in the same order. *)
Theorem sort_games_this_week_unchanged (d : Direction) (players : list Player) :
  Forall (fun p => weekly_projections p !! "games_this_week" = None) players ->
  (forall a b, a ∈ players -> b ∈ players ->
     comparator (mkSort "games_this_week" d) a b = 0) /\
  sort (comparator (mkSort "games_this_week" d)) players = players /\
  (forall page,
     allAvailablePlayersData page = players ->
     allAvailablePlayersData
       (sortAndRerenderTable page (mkSort "games_this_week" d)) =
       map ranked players).
Proof.
  intros Hall. rewrite Forall_forall in Hall.
  assert (forall a b, a ∈ players -> b ∈ players ->
            comparator (mkSort "games_this_week" d) a b = 0) as Hties.
  { intros a b Ha Hb. rewrite comparator_stat by (split; [done | set_solver]).
    simpl. unfold numeric_comparison, stat_value. simpl.
    rewrite (Hall a Ha), (Hall b Hb). by destruct d. }
  assert (sort (comparator (mkSort "games_this_week" d)) players = players)
    as Hsort.
  { apply sort_in_order. intros a b Ha Hb. by rewrite Hties. }
  split; [done|]. split; [done|].
  intros page <-. by rewrite sortAndRerenderTable_data, Hsort.
Qed.

Lemma sort_games_this_week_unchanged_witness :
  sort (comparator (mkSort "games_this_week" desc)) [adams; brown] =
    [adams; brown].
Proof.
  apply (sort_games_this_week_unchanged desc [adams; brown]).
  repeat constructor; vm_compute; reflexivity.
Defined.

(** ** Inversion of [gaa] *)

Lemma compare_num_swap (x y : Q) : - compare_num x y = compare_num y x.
Proof.
  rewrite !compare_num_spec, <- (Qcompare_antisym x y).
  by destruct (x ?= y)%Q.
Qed.

Lemma compare_num_lt (x y : Q) : (x < y)%Q -> compare_num x y = -1.
Proof. rewrite compare_num_spec, Qlt_alt. by intros ->. Qed.

Lemma compare_num_gt (x y : Q) : (y < x)%Q -> compare_num x y = 1.
Proof. intros H. rewrite <- compare_num_swap, compare_num_lt by done. done. Qed.

Lemma stat_key_gaa : stat_key "gaa".
Proof. split; [done | set_solver]. Qed.

(** C7.  Under the key [gaa] the comparator is the ordinary numeric
    comparison with its sign inverted, that is with the operands swapped, so
    the lower raw value takes the place the higher value takes under any
    other stat: first in descending order.  No other numeric key is
    inverted, neither a stat key nor [cat_coverage_rank]. *)
Theorem gaa_comparison_inverted :
  (forall d a b,
     comparator (mkSort "gaa" d) a b = - numeric_comparison (mkSort "gaa" d) a b /\
     comparator (mkSort "gaa" d) a b = numeric_comparison (mkSort "gaa" d) b a) /\
  (forall a b va vb,
     weekly_projections a !! "gaa" = Some va ->
     weekly_projections b !! "gaa" = Some vb ->
     (va < vb)%Q ->
     comparator (mkSort "gaa" desc) a b = -1 /\
     comparator (mkSort "gaa" asc) a b = 1) /\
  (forall cfg a b,
     stat_key (key cfg) -> key cfg <> "gaa" ->
     comparator cfg a b = numeric_comparison cfg a b) /\
  (forall d a b,
     comparator (mkSort "cat_coverage_rank" d) a b =
       rank_comparison (mkSort "cat_coverage_rank" d) a b).
Proof.
  assert (forall d a b,
            comparator (mkSort "gaa" d) a b =
              - numeric_comparison (mkSort "gaa" d) a b) as Hinv.
  { intros d a b. by rewrite comparator_stat by apply stat_key_gaa. }
  split; [|split; [|split]].
  - intros d a b. split; [apply Hinv|].
    rewrite Hinv. unfold numeric_comparison. simpl.
    rewrite <- (compare_num_swap (stat_value "gaa" a)). destruct d; simpl; lia.
  - intros a b va vb Ha Hb Hlt. rewrite !Hinv.
    unfold numeric_comparison, stat_value. simpl. rewrite Ha, Hb. simpl.
    by rewrite compare_num_lt.
  - intros cfg a b Hk Hne. rewrite comparator_stat by done.
    apply String.eqb_neq in Hne. by rewrite Hne.
  - intros d a b. apply comparator_rank.
Qed.

Lemma gaa_comparison_inverted_witness :
  (comparator (mkSort "gaa" desc) cole
     (mkPlayer (Some "Ellis") None None ["G"] 2 (<["gaa":=(3 # 1)%Q]> ∅) None None)
   = -1 /\
   comparator (mkSort "gaa" asc) cole
     (mkPlayer (Some "Ellis") None None ["G"] 2 (<["gaa":=(3 # 1)%Q]> ∅) None None)
   = 1) /\
  comparator (mkSort "pts" desc) adams brown =
    numeric_comparison (mkSort "pts" desc) adams brown.
Proof.
  destruct gaa_comparison_inverted as (_ & Hlow & Hother & _). split.
  - apply (Hlow _ _ (5 # 2)%Q (3 # 1)%Q); vm_compute; reflexivity.
  - apply Hother; [split; [done | vm_compute; set_solver] | done].
Defined.

(** ** Sentinel defaults *)

Lemma or_num_nonzero (r d : Z) : r <> 0 -> or_num (Some r) d = r.
Proof. intros Hr. simpl. by destruct (Z.eqb_spec r 0). Qed.

Lemma compare_int_lt (x y : Z) : x < y -> compare_int x y = -1.
Proof. intros H. rewrite compare_int_spec. by apply Z.compare_lt_iff in H as ->. Qed.

Lemma compare_int_gt (x y : Z) : y < x -> compare_int x y = 1.
Proof. intros H. rewrite compare_int_spec. by apply Z.compare_gt_iff in H as ->. Qed.

(** A missing stat value against a present one above -1, under any stat
    key: the ordinary comparison puts it first in ascending order. *)
Lemma numeric_comparison_missing (cfg : SortState) (a b : Player) (v : Q) :
  weekly_projections a !! key cfg = None ->
  weekly_projections b !! key cfg = Some v ->
  (-1 < v)%Q ->
  numeric_comparison cfg a b = match direction cfg with asc => -1 | desc => 1 end.
Proof.
  intros Ha Hb Hv. unfold numeric_comparison, stat_value. rewrite Ha, Hb. simpl.
  rewrite compare_num_lt by done. by destruct (direction cfg).
Qed.

(** C3 as stated fails: a missing stat value does not sort first in
    ascending and last in descending order under every stat key.  Under
    [gaa], in ascending order, Adams, who has no [gaa] entry, is placed
    after Cole, whose [gaa] is 5/2. *)
Lemma missing_gaa_sorts_last_ascending :
  comparator (mkSort "gaa" asc) adams cole = 1 /\
  ~ missing_stat_first_asc_last_desc.
Proof.
  split; [vm_compute; reflexivity|].
  intros H.
  assert (comparator (mkSort "gaa" asc) adams cole = -1) as Hc.
  { apply (H (mkSort "gaa" asc) adams cole (5 # 2)%Q);
      [apply stat_key_gaa | vm_compute; reflexivity..]. }
  vm_compute in Hc. discriminate Hc.
Qed.

(** C3, amended.  The comparator always returns -1, 0 or 1.  A missing
    coverage rank is compared exactly as the rank 999, so in ascending order
    it comes after every rank from 1 to 998.  A missing stat value is
    compared exactly as the value -1; against a present value above -1 it
    comes first in ascending and last in descending order under every stat
    key other than [gaa], and last in ascending and first in descending
    order under [gaa]. *)
Theorem comparator_sentinel_defaults :
  (forall cfg a b, comparator cfg a b ∈ [-1; 0; 1]) /\
  (forall d a a' b,
     cat_coverage_rank a = None -> cat_coverage_rank a' = Some 999 ->
     comparator (mkSort "cat_coverage_rank" d) a b =
       comparator (mkSort "cat_coverage_rank" d) a' b /\
     comparator (mkSort "cat_coverage_rank" d) b a =
       comparator (mkSort "cat_coverage_rank" d) b a') /\
  (forall cfg a a' b,
     stat_key (key cfg) ->
     weekly_projections a !! key cfg = None ->
     weekly_projections a' !! key cfg = Some (-1)%Q ->
     comparator cfg a b = comparator cfg a' b /\
     comparator cfg b a = comparator cfg b a') /\
  (forall a b r,
     cat_coverage_rank a = None -> cat_coverage_rank b = Some r ->
     1 <= r < 999 ->
     comparator (mkSort "cat_coverage_rank" asc) a b = 1) /\
  (forall cfg a b v,
     stat_key (key cfg) -> key cfg <> "gaa" ->
     weekly_projections a !! key cfg = None ->
     weekly_projections b !! key cfg = Some v ->
     (-1 < v)%Q ->
     comparator cfg a b = match direction cfg with asc => -1 | desc => 1 end) /\
  (forall d a b v,
     weekly_projections a !! "gaa" = None ->
     weekly_projections b !! "gaa" = Some v ->
     (-1 < v)%Q ->
     comparator (mkSort "gaa" d) a b = match d with asc => 1 | desc => -1 end).
Proof.
  split; [exact comparator_range|].
  split; [|split; [|split; [|split]]].
  - intros d a a' b Ha Ha'. rewrite !comparator_rank. unfold rank_comparison.
    by rewrite Ha, Ha'.
  - intros cfg a a' b Hk Ha Ha'. rewrite !comparator_stat by done.
    unfold numeric_comparison, stat_value. by rewrite Ha, Ha'.
  - intros a b r Ha Hb Hr. rewrite comparator_rank. unfold rank_comparison.
    rewrite Ha, Hb, or_num_nonzero by lia. simpl. apply compare_int_gt. lia.
  - intros cfg a b v Hk Hne Ha Hb Hv. rewrite comparator_stat by done.
    apply String.eqb_neq in Hne. rewrite Hne.
    by apply numeric_comparison_missing with v.
  - intros d a b v Ha Hb Hv. rewrite comparator_stat by apply stat_key_gaa.
    simpl. rewrite (numeric_comparison_missing (mkSort "gaa" d) a b v) by done.
    by destruct d.
Qed.

Lemma comparator_sentinel_defaults_witness :
  comparator (mkSort "cat_coverage_rank" asc) davis (ranked adams) = 1 /\
  comparator (mkSort "w" desc) adams cole = 1 /\
  comparator (mkSort "gaa" desc) adams cole = -1.
Proof.
  destruct comparator_sentinel_defaults as (_ & _ & _ & Hrank & Hstat & Hgaa).
  split; [|split].
  - apply (Hrank davis (ranked adams) 20); [reflexivity | vm_compute; reflexivity | lia].
  - apply (Hstat (mkSort "w" desc) adams cole (2 # 1)%Q);
      [split; [done | vm_compute; set_solver] | done
      | vm_compute; reflexivity..].
  - apply (Hgaa desc adams cole (5 # 2)%Q); vm_compute; reflexivity.
Defined.

(** ** A coverage rank of 0 *)

Lemma rank_zero_after_ranked (p q : Player) (r : Z) :
  cat_coverage_rank p = Some 0 -> cat_coverage_rank q = Some r ->
  1 <= r < 999 ->
  comparator (mkSort "cat_coverage_rank" asc) p q = 1 /\
  comparator (mkSort "cat_coverage_rank" asc) q p = -1.
Proof.
  intros Hp Hq Hr. rewrite !comparator_rank. unfold rank_comparison.
  rewrite Hp, Hq. change (or_num (Some 0) 999) with 999.
  rewrite or_num_nonzero by lia. simpl.
  split; [apply compare_int_gt | apply compare_int_lt]; lia.
Qed.

Lemma rank_zero_sorted_last (p : Player) (l1 l2 : list Player) :
  cat_coverage_rank p = Some 0 ->
  Forall (fun q => exists r, cat_coverage_rank q = Some r /\ 1 <= r < 999)
         (l1 ++ l2) ->
  sort (comparator (mkSort "cat_coverage_rank" asc)) (l1 ++ p :: l2) =
  sort (comparator (mkSort "cat_coverage_rank" asc)) (l1 ++ l2) ++ [p].
Proof.
  intros Hp. induction l1 as [|x l1 IH]; simpl; intros Hall.
  - change (foldr _ _ l2) with (sort (comparator (mkSort "cat_coverage_rank" asc)) l2).
    apply insert_last. rewrite sort_perm.
    eapply Forall_impl; [exact Hall|]. intros q (r & Hq & Hr). simpl.
    rewrite (proj1 (rank_zero_after_ranked p q r Hp Hq Hr)). lia.
  - apply Forall_cons in Hall as [(r & Hx & Hr) Hall].
    change (foldr _ _ (l1 ++ p :: l2))
      with (sort (comparator (mkSort "cat_coverage_rank" asc)) (l1 ++ p :: l2)).
    rewrite IH by done. apply insert_before_last.
    rewrite (proj2 (rank_zero_after_ranked p x r Hp Hx Hr)). lia.
Qed.

(** C9.  A player whose coverage rank was computed as 0, as happens when
    the per-game projections are absent, is compared under
    [cat_coverage_rank] with the value 999: the comparator cannot tell the
    player from one whose rank is missing, places the player after every
    rank from 1 to 998 in ascending order, and the ascending sort of such
    rows puts the player last. *)
Theorem zero_coverage_rank_compared_as_999 :
  (forall p,
     per_game_projections p = None -> cat_coverage_rank (ranked p) = Some 0) /\
  (forall d p b,
     cat_coverage_rank p = Some 0 ->
     comparator (mkSort "cat_coverage_rank" d) p b =
       signed d (compare_int 999 (or_num (cat_coverage_rank b) 999))) /\
  (forall d p p' b,
     cat_coverage_rank p = Some 0 -> cat_coverage_rank p' = None ->
     comparator (mkSort "cat_coverage_rank" d) p b =
       comparator (mkSort "cat_coverage_rank" d) p' b /\
     comparator (mkSort "cat_coverage_rank" d) b p =
       comparator (mkSort "cat_coverage_rank" d) b p') /\
  (forall p q r,
     cat_coverage_rank p = Some 0 -> cat_coverage_rank q = Some r ->
     1 <= r < 999 ->
     comparator (mkSort "cat_coverage_rank" asc) p q = 1) /\
  (forall p l1 l2,
     cat_coverage_rank p = Some 0 ->
     Forall (fun q => exists r, cat_coverage_rank q = Some r /\ 1 <= r < 999)
            (l1 ++ l2) ->
     sort (comparator (mkSort "cat_coverage_rank" asc)) (l1 ++ p :: l2) =
     sort (comparator (mkSort "cat_coverage_rank" asc)) (l1 ++ l2) ++ [p]).
Proof.
  split; [|split; [|split; [|split]]].
  - intros p Hp. unfold ranked, computeCoverageRank. by rewrite Hp.
  - intros d p b Hp. rewrite comparator_rank. unfold rank_comparison.
    by rewrite Hp.
  - intros d p p' b Hp Hp'. rewrite !comparator_rank. unfold rank_comparison.
    by rewrite Hp, Hp'.
  - intros p q r Hp Hq Hr. apply (rank_zero_after_ranked p q r Hp Hq Hr).
  - exact rank_zero_sorted_last.
Qed.

Lemma zero_coverage_rank_compared_as_999_witness :
  cat_coverage_rank (ranked davis) = Some 0 /\
  sort (comparator (mkSort "cat_coverage_rank" asc))
       ([ranked adams] ++ ranked davis :: [ranked brown]) =
  sort (comparator (mkSort "cat_coverage_rank" asc))
       ([ranked adams] ++ [ranked brown]) ++ [ranked davis].
Proof.
  destruct zero_coverage_rank_compared_as_999 as (Hzero & _ & _ & _ & Hlast).
  split.
  - apply Hzero. reflexivity.
  - apply Hlast; [reflexivity|].
    repeat constructor.
    + exists 20. split; [vm_compute; reflexivity | lia].
    + exists 1. split; [vm_compute; reflexivity | lia].
Defined.

(** ** The first sort after a fetch *)

(** On freshly fetched players the initial sort by coverage rank compares
    999 with 999 throughout: it leaves the order of the response. *)
Lemma fetchAndDisplayData_keeps_order (page : Page) (data : Response) :
  key (currentSort page) = "cat_coverage_rank" ->
  Forall (fun p => cat_coverage_rank p = None) (available_players data) ->
  allAvailablePlayersData (fetchAndDisplayData page data) =
    map ranked (available_players data).
Proof.
  intros Hkey Hfresh. unfold fetchAndDisplayData.
  rewrite sortAndRerenderTable_data. simpl. f_equal.
  apply sort_in_order. intros a b Ha Hb.
  rewrite Forall_forall in Hfresh.
  destruct (currentSort page) as [k d]. simpl in Hkey. subst k.
  rewrite comparator_rank. unfold rank_comparison.
  rewrite (Hfresh a Ha), (Hfresh b Hb). by destruct d.
Qed.

(** Every render leaves each stored rank equal to the rank computed from the
    player's projections, so a later sort reads the ranks of the render
    before it. *)
Lemma computeCoverageRank_ranked (p : Player) :
  computeCoverageRank (ranked p) = computeCoverageRank p.
Proof. reflexivity. Qed.

Lemma sortAndRerenderTable_ranks (page : Page) (cfg : SortState) :
  Forall (fun p => cat_coverage_rank p = Some (computeCoverageRank p))
         (allAvailablePlayersData (sortAndRerenderTable page cfg)).
Proof.
  rewrite sortAndRerenderTable_data. apply Forall_forall.
  intros p (q & -> & _)%list_elem_of_fmap. reflexivity.
Qed.

(** C2, on the code.  After the fetch of a response listing Adams
    (coverage rank 20) before Brown (coverage rank 1), the state is
    [cat_coverage_rank] ascending and the table shows Adams above Brown:
    the initial sort ran before any rank was computed.  Sorting the ranked
    rows, as a second run of the same sort does, puts Brown first. *)
Theorem first_sort_reads_uncomputed_ranks :
  let page := fetchAndDisplayData initialPage sample_response in
  currentSort page = mkSort "cat_coverage_rank" asc /\
  allAvailablePlayersData page = [ranked adams; ranked brown] /\
  map cat_coverage_rank (allAvailablePlayersData page) = [Some 20; Some 1] /\
  (exists rows,
     availablePlayersTable page = Rows rows /\
     map cell_name rows = [Some "Adams"; Some "Brown"] /\
     map cell_rank rows = [20; 1]) /\
  sort (comparator (currentSort page)) [ranked adams; ranked brown] =
    [ranked brown; ranked adams] /\
  allAvailablePlayersData (sortAndRerenderTable page (currentSort page)) =
    [ranked brown; ranked adams].
Proof.
  repeat split; try (vm_compute; reflexivity).
  eexists. repeat split; vm_compute; reflexivity.
Qed.

(** ** The sort is determined by the comparator

    The language leaves the sorting algorithm open, and fixes the result
    when the comparison function is consistent: a sorted, stable
    permutation.  The comparator of the page is consistent, so every
    conforming [Array.prototype.sort] returns the list that [sort]
    computes. *)

Section array_sort_consistent.
Context {A : Type} (cmp : A -> A -> Z).
Hypothesis cmp_antisym : forall x y, cmp y x = - cmp x y.
Hypothesis cmp_trans : forall x y z, cmp x y <= 0 -> cmp y z <= 0 -> cmp x z <= 0.

Lemma cmp_refl (x : A) : cmp x x = 0.
Proof. specialize (cmp_antisym x x). lia. Qed.

Lemma insert_sorted (x : A) (l : list A) :
  StronglySorted (ordered cmp) l -> StronglySorted (ordered cmp) (insert cmp x l).
Proof.
  induction 1 as [|y l Hl IH Hy]; simpl.
  - repeat constructor.
  - destruct (Z.ltb_spec 0 (cmp x y)) as [Hgt|Hle].
    + constructor; [done|]. rewrite insert_perm. constructor; [|done].
      unfold ordered. specialize (cmp_antisym x y). lia.
    + constructor; [by constructor|]. constructor; [done|].
      eapply Forall_impl; [exact Hy|]. intros z Hz. by apply cmp_trans with y.
Qed.

Lemma sort_sorted (l : list A) : StronglySorted (ordered cmp) (sort cmp l).
Proof.
  induction l as [|x l IH]; [constructor | by apply insert_sorted].
Qed.

(** Two sorted lists with the same elements and the same ties are equal. *)
Lemma sorted_stable_unique (l1 l2 : list A) :
  l1 ≡ₚ l2 ->
  StronglySorted (ordered cmp) l1 -> StronglySorted (ordered cmp) l2 ->
  (forall z, filter (fun y => cmp z y = 0) l1 = filter (fun y => cmp z y = 0) l2) ->
  l1 = l2.
Proof.
  revert l2. induction l1 as [|a l1 IH]; intros l2 Hperm Hs1 Hs2 Hties.
  - by apply Permutation_nil_l in Hperm.
  - destruct l2 as [|b l2]; [by apply Permutation_nil_r in Hperm|].
    apply StronglySorted_cons in Hs1 as [Ha Hs1].
    apply StronglySorted_cons in Hs2 as [Hb Hs2].
    assert (cmp a b = 0) as Hab.
    { assert (ordered cmp a b) as Hle1.
      { assert (b ∈ a :: l1) as Hin by (rewrite Hperm; left).
        apply elem_of_cons in Hin as [->|Hin]; [unfold ordered; by rewrite cmp_refl|].
        rewrite Forall_forall in Ha. by apply Ha. }
      assert (ordered cmp b a) as Hle2.
      { assert (a ∈ b :: l2) as Hin by (rewrite <- Hperm; left).
        apply elem_of_cons in Hin as [->|Hin]; [unfold ordered; by rewrite cmp_refl|].
        rewrite Forall_forall in Hb. by apply Hb. }
      unfold ordered in *. specialize (cmp_antisym a b). lia. }
    assert (a = b) as <-.
    { specialize (Hties a). rewrite !filter_cons in Hties.
      rewrite decide_True in Hties by apply cmp_refl.
      rewrite decide_True in Hties by done. congruence. }
    f_equal. apply IH; [by apply Permutation_cons_inv in Hperm | done..|].
    intros z. specialize (Hties z). rewrite !filter_cons in Hties.
    destruct (decide (cmp z a = 0)); congruence.
Qed.

Lemma sort_unique (l l' : list A) :
  l' ≡ₚ l ->
  StronglySorted (ordered cmp) l' ->
  (forall z, filter (fun y => cmp z y = 0) l' = filter (fun y => cmp z y = 0) l) ->
  l' = sort cmp l.
Proof.
  intros Hperm Hsorted Hties.
  apply sorted_stable_unique; [by rewrite sort_perm | done | apply sort_sorted |].
  intros z. rewrite Hties. symmetry. apply sort_filter_ties.
  intros x y w Hx Hy.
  assert (cmp x w = 0) by (specialize (cmp_antisym w x); lia).
  apply cmp_trans with w; lia.
Qed.

End array_sort_consistent.

Lemma comparator_sign (cfg : SortState) (a b : Player) :
  comparator cfg a b = sort_sign cfg * key_comparison (key cfg) a b.
Proof.
  unfold comparator, sort_sign, key_comparison, stat_value.
  rewrite !defined_or_default.
  destruct (String.eqb (key cfg) "cat_coverage_rank"), (isNumeric (key cfg)),
    (includes inverseSortStats (key cfg)), (direction cfg); simpl; lia.
Qed.

Lemma sort_sign_cases (cfg : SortState) : sort_sign cfg = 1 \/ sort_sign cfg = -1.
Proof.
  unfold sort_sign.
  destruct (isNumeric _ && includes _ _), (direction cfg); simpl; lia.
Qed.

Lemma compare_int_le (x y : Z) : compare_int x y <= 0 <-> x <= y.
Proof.
  rewrite compare_int_spec. destruct (Z.compare_spec x y); split; lia.
Qed.

Lemma compare_num_le (x y : Q) : compare_num x y <= 0 <-> (x <= y)%Q.
Proof.
  rewrite compare_num_spec, Qle_alt.
  destruct (x ?= y)%Q; split; (lia || done).
Qed.

Lemma compare_str_le (x y : string) : compare_str x y <= 0 <-> String.le x y.
Proof.
  rewrite compare_str_spec. unfold String.le, String.leb.
  destruct (String.compare x y); simpl; split; (lia || done).
Qed.

Lemma compare_int_swap (x y : Z) : compare_int y x = - compare_int x y.
Proof.
  rewrite !compare_int_spec, (Z.compare_antisym x y).
  by destruct (x ?= y).
Qed.

Lemma compare_str_swap (x y : string) : compare_str y x = - compare_str x y.
Proof.
  rewrite !compare_str_spec, (String.compare_antisym y x).
  by destruct (String.compare x y).
Qed.

Lemma key_comparison_antisym (k : string) (a b : Player) :
  key_comparison k b a = - key_comparison k a b.
Proof.
  unfold key_comparison. repeat case_match.
  - apply compare_int_swap.
  - by rewrite <- compare_num_swap.
  - apply compare_str_swap.
Qed.

Lemma key_comparison_trans (k : string) (a b c : Player) :
  key_comparison k a b <= 0 -> key_comparison k b c <= 0 ->
  key_comparison k a c <= 0.
Proof.
  unfold key_comparison. repeat case_match.
  - rewrite !compare_int_le. lia.
  - rewrite !compare_num_le. apply Qle_trans.
  - rewrite !compare_str_le. apply transitivity.
Qed.

Lemma comparator_antisym (cfg : SortState) (a b : Player) :
  comparator cfg b a = - comparator cfg a b.
Proof. rewrite !comparator_sign, key_comparison_antisym. lia. Qed.

Lemma comparator_trans (cfg : SortState) (a b c : Player) :
  comparator cfg a b <= 0 -> comparator cfg b c <= 0 -> comparator cfg a c <= 0.
Proof.
  rewrite !comparator_sign.
  destruct (sort_sign_cases cfg) as [-> | ->]; intros Hab Hbc.
  - pose proof (key_comparison_trans (key cfg) a b c). lia.
  - pose proof (key_comparison_trans (key cfg) c b a) as Ht.
    rewrite (key_comparison_antisym _ b c), (key_comparison_antisym _ a b),
      (key_comparison_antisym _ a c) in Ht. lia.
Qed.

(** The rows come out sorted by the comparator, and any sorted and stable
    rearrangement of the rows is the one the model computes. *)
Lemma sort_rows_sorted (cfg : SortState) (players : list Player) :
  StronglySorted (ordered (comparator cfg)) (sort (comparator cfg) players).
Proof. apply sort_sorted; [apply comparator_antisym | apply comparator_trans]. Qed.

Lemma sort_rows_determined (cfg : SortState) (players sorted : list Player) :
  sorted ≡ₚ players ->
  StronglySorted (ordered (comparator cfg)) sorted ->
  (forall z, filter (fun y => comparator cfg z y = 0) sorted =
             filter (fun y => comparator cfg z y = 0) players) ->
  sorted = sort (comparator cfg) players.
Proof.
  apply sort_unique; [apply comparator_antisym | apply comparator_trans].
Qed.

(** * Further properties of the code *)

(** ** The free-agent table *)

(** X1.  The Total Rank of the free-agent table is the sum of the seven
    skater ranks for every player: it equals the coverage rank of the
    players page for a player without the [G] tag, and for a goalie it is
    the sum of the skater ranks, 0 when the projections hold none of
    them. *)
Theorem freeAgentTotalRank_skater_sum :
  (forall p, freeAgentTotalRank p = foldr Z.add 0 (map (rank_of p) skater_stats)) /\
  (forall p, "G" ∉ positions p -> freeAgentTotalRank p = computeCoverageRank p) /\
  (forall p projections,
     "G" ∈ positions p ->
     per_game_projections p = Some projections ->
     (forall stat, stat ∈ skater_stats ->
        projections !! (stat +:+ "_cat_rank") = None) ->
     freeAgentTotalRank p = 0).
Proof.
  assert (forall p, freeAgentTotalRank p =
                    foldr Z.add 0 (map (rank_of p) skater_stats)) as Hsum.
  { intros p. unfold freeAgentTotalRank, rank_of.
    destruct (per_game_projections p) as [projections|]; [|done].
    unfold sum_ranks. simpl. eval_appends. rewrite !or_num_zero. lia. }
  split; [exact Hsum|]. split.
  - intros p HG. rewrite Hsum, computeCoverageRank_sum.
    unfold coverage_rank_spec. by rewrite decide_False.
  - intros p projections _ Hp Hnone. rewrite Hsum. unfold rank_of. rewrite Hp.
    unfold skater_stats in *. simpl.
    rewrite !Hnone by set_solver. done.
Qed.

Lemma freeAgentTotalRank_skater_sum_witness :
  freeAgentTotalRank adams = computeCoverageRank adams /\
  freeAgentTotalRank cole = 0.
Proof.
  destruct freeAgentTotalRank_skater_sum as (_ & Hskater & Hgoalie). split.
  - apply Hskater. vm_compute. set_solver.
  - eapply Hgoalie; [vm_compute; set_solver | reflexivity |].
    intros stat Hstat. unfold skater_stats in Hstat.
    repeat (apply elem_of_cons in Hstat as [->|Hstat]; [vm_compute; reflexivity|]).
    by apply elem_of_nil in Hstat.
Defined.

Lemma getRankColor_is_Some (rank : maybe Z) :
  is_Some (getRankColor rank) <-> valid_rank rank.
Proof.
  split.
  - intros [style Hs]. destruct rank as [| |r]; try done.
    destruct (decide (1 <= r <= 20)) as [Hr|Hr]; [by exists r|].
    rewrite getRankColor_outside in Hs; [done|].
    intros (r' & Hr' & Hin). by simplify_eq.
  - intros (r & -> & Hr). by rewrite getRankColor_inside.
Qed.

(** X2.  The stat cells of a row, on the players page and in the free-agent
    table alike: there is one cell per displayed stat, showing the weekly
    projection or 0, and a cell is coloured exactly when its stat is one of
    the seven heatmap stats and the player's rank for it lies in 1..20.  The
    goalie stats [w], [so], [svpct] and [gaa] are never coloured. *)
Theorem statCells_coloured (p : Player) (i : nat) (stat : string) :
  STATS_TO_DISPLAY !! i = Some stat ->
  exists style,
    statCells p !! i = Some (style, default 0%Q (weekly_projections p !! stat)) /\
    (is_Some style <->
       stat ∈ STATS_FOR_HEATMAP /\
       valid_rank (get_or_null (per_game_projections p) (stat +:+ "_cat_rank"))) /\
    (stat ∈ goalie_stats -> style = None).
Proof.
  intros Hi. unfold statCells. rewrite list_lookup_fmap, Hi.
  cbn -[includes getRankColor get_or_null String.append].
  eexists. split; [by rewrite defined_or_default|].
  rewrite includes_decide. unfold bool_decide.
  destruct (decide_rel _ _ _) as [Hin|Hin].
  - split.
    + rewrite getRankColor_is_Some. tauto.
    + intros Hg. exfalso. unfold goalie_stats, STATS_FOR_HEATMAP in *. set_solver.
  - split; [|done]. split; [by intros [? ?] | tauto].
Qed.

Lemma statCells_coloured_witness :
  exists style,
    statCells adams !! 0%nat =
      Some (style, default 0%Q (weekly_projections adams !! "g")) /\
    (is_Some style <->
       "g" ∈ STATS_FOR_HEATMAP /\
       valid_rank (get_or_null (per_game_projections adams) ("g" +:+ "_cat_rank"))) /\
    ("g" ∈ goalie_stats -> style = None).
Proof. apply (statCells_coloured adams 0 "g"). reflexivity. Defined.

(** ** The matchup summary *)

Lemma Q_ltb_lt (x y : Q) : Q_ltb x y = true <-> (x < y)%Q.
Proof. unfold Q_ltb. rewrite Qlt_alt. by destruct (x ?= y)%Q. Qed.

Lemma Q_ltb_asym (x y : Q) : Q_ltb x y = true -> Q_ltb y x = false.
Proof.
  rewrite Q_ltb_lt. intros H. apply not_true_iff_false. rewrite Q_ltb_lt.
  intros H'. exact (Qlt_irrefl x (Qlt_trans _ _ _ H H')).
Qed.

Lemma Q_ltb_neither (x y : Q) :
  Q_ltb x y = false -> Q_ltb y x = false -> (x == y)%Q.
Proof.
  intros H1%not_true_iff_false H2%not_true_iff_false.
  rewrite Q_ltb_lt in H1, H2.
  apply Qle_antisym; by apply Qnot_lt_le.
Qed.

Lemma includes_gaa (stat : string) :
  includes ["gaa"] stat = bool_decide (stat = "gaa").
Proof.
  rewrite includes_decide. apply bool_decide_ext. set_solver.
Qed.

Lemma category_styles_shaded (stat : string) (t1 t2 : Total) :
  let styles := category_styles (includes ["gaa"] stat) t1 t2 in
  shaded stat (styles.1, t1) (styles.2, t2).
Proof.
  rewrite includes_gaa. unfold shaded, better, category_styles, bool_decide.
  destruct t1 as [|a], t2 as [|b]; simpl; try (right; right; done).
  destruct (decide_rel _ _ _) as [Hg|Hg]; simpl;
    destruct (Q_ltb a b) eqn:Hab, (Q_ltb b a) eqn:Hba; simpl;
    try (apply Q_ltb_asym in Hab; congruence);
    try apply Q_ltb_lt in Hab; try apply Q_ltb_lt in Hba.
  - left. naive_solver.
  - right; left. naive_solver.
  - right; right. repeat split; [done..|]. intros ?? [= <-] [= <-].
    by apply Q_ltb_neither.
  - right; left. naive_solver.
  - left. naive_solver.
  - right; right. repeat split; [done..|]. intros ?? [= <-] [= <-].
    by apply Q_ltb_neither.
Qed.

(** X3.  Every row of the matchup summary shades its Current pair and its
    Live pair the same way: the better total green and the other red, the
    lower total being the better one for [gaa] only; equal totals and pairs
    with a missing totals object ([N/A]) stay unshaded.  A missing entry of
    a present totals object counts 0. *)
Theorem createSummaryTable_shaded
    (totals1Current totals1Live totals2Current totals2Live :
       option (gmap string Q)) (i : nat) (stat : string) :
  STATS_TO_DISPLAY !! i = Some stat ->
  exists row,
    createSummaryTable totals1Current totals1Live totals2Current totals2Live
      !! i = Some row /\
    category row = toUpperCase stat /\
    (current1 row).2 = read_total totals1Current stat /\
    (live1 row).2 = read_total totals1Live stat /\
    (current2 row).2 = read_total totals2Current stat /\
    (live2 row).2 = read_total totals2Live stat /\
    shaded stat (current1 row) (current2 row) /\
    shaded stat (live1 row) (live2 row).
Proof.
  intros Hi. unfold createSummaryTable. rewrite list_lookup_fmap, Hi.
  eexists. split; [reflexivity|]. unfold summaryRow.
  pose proof (category_styles_shaded stat (read_total totals1Current stat)
                (read_total totals2Current stat)) as Hc.
  pose proof (category_styles_shaded stat (read_total totals1Live stat)
                (read_total totals2Live stat)) as Hl.
  destruct (category_styles _ (read_total totals1Current stat) _).
  destruct (category_styles _ (read_total totals1Live stat) _).
  by repeat split.
Qed.

Lemma createSummaryTable_shaded_witness :
  exists row,
    createSummaryTable (Some (<["gaa":=(5 # 2)%Q]> ∅)) None
                       (Some (<["gaa":=(3 # 1)%Q]> ∅)) None
      !! 10%nat = Some row /\
    category row = toUpperCase "gaa" /\
    (current1 row).2 = read_total (Some (<["gaa":=(5 # 2)%Q]> ∅)) "gaa" /\
    (live1 row).2 = read_total None "gaa" /\
    (current2 row).2 = read_total (Some (<["gaa":=(3 # 1)%Q]> ∅)) "gaa" /\
    (live2 row).2 = read_total None "gaa" /\
    shaded "gaa" (current1 row) (current2 row) /\
    shaded "gaa" (live1 row) (live2 row).
Proof. apply createSummaryTable_shaded. reflexivity. Defined.

Lemma category_styles_swap (isInverse : bool) (t1 t2 : Total) :
  category_styles isInverse t2 t1 =
    ((category_styles isInverse t1 t2).2, (category_styles isInverse t1 t2).1).
Proof.
  unfold category_styles. destruct t1 as [|a], t2 as [|b]; try done.
  destruct isInverse; simpl;
    destruct (Q_ltb a b) eqn:Hab, (Q_ltb b a) eqn:Hba; simpl; try done;
    apply Q_ltb_asym in Hab; congruence.
Qed.

(** X4.  Exchanging the two teams exchanges their cells, shading
    included, in every row of the matchup summary. *)
Theorem createSummaryTable_swap
    (totals1Current totals1Live totals2Current totals2Live :
       option (gmap string Q)) :
  createSummaryTable totals2Current totals2Live totals1Current totals1Live =
    map swap_teams
        (createSummaryTable totals1Current totals1Live
                            totals2Current totals2Live).
Proof.
  unfold createSummaryTable. rewrite map_map. apply map_ext. intros stat.
  unfold summaryRow, swap_teams.
  rewrite (category_styles_swap _ (read_total totals1Current stat)).
  rewrite (category_styles_swap _ (read_total totals1Live stat)).
  destruct (category_styles _ (read_total totals1Current stat) _).
  by destruct (category_styles _ (read_total totals1Live stat) _).
Qed.

(** ** The utilization table *)

Lemma by_starts_antisym (a b : RosterEntry) : by_starts b a = - by_starts a b.
Proof. unfold by_starts. lia. Qed.

Lemma by_starts_trans (a b c : RosterEntry) :
  by_starts a b <= 0 -> by_starts b c <= 0 -> by_starts a c <= 0.
Proof. unfold by_starts. lia. Qed.

Lemma StronglySorted_weaken {A} (R R' : A -> A -> Prop) (l : list A) :
  (forall x y, R x y -> R' x y) -> StronglySorted R l -> StronglySorted R' l.
Proof.
  intros HR. induction 1 as [|x l Hl IH Hx]; constructor; [done|].
  eapply Forall_impl; [exact Hx | auto].
Qed.

(** X5.  [createUtilizationTable] leaves the roster sorted by starts, most
    starts first, without losing or duplicating a player; players with
    equal starts keep the order of the response; the rows follow the sorted
    roster. *)
Theorem createUtilizationTable_sorted (roster : list RosterEntry) :
  (createUtilizationTable roster).1 ≡ₚ roster /\
  StronglySorted (fun a b => u_starts_this_week b <= u_starts_this_week a)
                 (createUtilizationTable roster).1 /\
  (forall n,
     filter (fun p => u_starts_this_week p = n) (createUtilizationTable roster).1 =
     filter (fun p => u_starts_this_week p = n) roster) /\
  map u_cell_starts (createUtilizationTable roster).2 =
    map u_starts_this_week (createUtilizationTable roster).1 /\
  map u_cell_name (createUtilizationTable roster).2 =
    map u_name (createUtilizationTable roster).1.
Proof.
  unfold createUtilizationTable. simpl. split; [apply sort_perm|]. split.
  - eapply StronglySorted_weaken;
      [|apply sort_sorted; [apply by_starts_antisym | apply by_starts_trans]].
    unfold ordered, by_starts. intros x y. lia.
  - split; [|by rewrite !map_map].
    intros n. set (z := mkRosterEntry None [] 0 n None None).
    rewrite (list_filter_iff _ (fun y => by_starts z y = 0));
      [|unfold by_starts, z; simpl; intros; lia].
    rewrite (list_filter_iff (fun p => u_starts_this_week p = n)
                             (fun y => by_starts z y = 0) roster);
      [|unfold by_starts, z; simpl; intros; lia].
    apply sort_filter_ties. unfold by_starts. intros; lia.
Qed.

(** X6.  For a player with 1 to 39 games and between no start and a start
    in every game, the Util cell shows the exact percentage of starts
    rounded to the nearest integer, a half rounded up: the double
    arithmetic and [toFixed(0)] introduce no error.  The bound is sharp: 23
    starts in 40 games, exactly 57.5 percent, are shown as 57%. *)
Theorem utilizationRow_percent :
  (forall player,
     1 <= u_games_this_week player <= 39 ->
     0 <= u_starts_this_week player <= u_games_this_week player ->
     u_cell_util (utilizationRow player) =
       digits (rounded_percent (u_starts_this_week player)
                               (u_games_this_week player))
       +:+ "%") /\
  rounded_percent 23 40 = 58 /\
  u_cell_util (utilizationRow (mkRosterEntry None [] 40 23 None None)) = "57%".
Proof.
  split; [|split; vm_compute; reflexivity].
  intros player Hg Hs.
  assert (forallb (fun g =>
            forallb (fun s =>
                       String.eqb
                         (toFixed0 ((number_of_int s / number_of_int g) * 100)%float)
                         (digits (rounded_percent s g)))
                    (seqZ 0 (g + 1)))
            (seqZ 1 39) = true) as Hall by (vm_compute; reflexivity).
  rewrite forallb_forall in Hall.
  specialize (Hall (u_games_this_week player)).
  rewrite forallb_forall in Hall.
  unfold utilizationRow. simpl.
  destruct (Z.ltb_spec 0 (u_games_this_week player)); [|lia].
  f_equal. apply String.eqb_eq. apply Hall.
  - apply list_elem_of_In, elem_of_seqZ. lia.
  - apply list_elem_of_In, elem_of_seqZ. lia.
Qed.

Lemma utilizationRow_percent_witness :
  u_cell_util (utilizationRow (mkRosterEntry (Some "Adams") ["C"] 3 2 None None)) =
    digits (rounded_percent 2 3) +:+ "%".
Proof.
  apply (proj1 utilizationRow_percent
           (mkRosterEntry (Some "Adams") ["C"] 3 2 None None));
    simpl; lia.
Defined.

(** ** Free-agent pagination *)

(** X7.  Whatever buttons are clicked, and however many free agents each
    page returns, every start index requested through the pagination
    controls is a non-negative multiple of 20: Previous is never offered on
    the first page. *)
Theorem pagination_start_index (p : Pagination) (b : Button) (startIndex : Z) :
  rendered p ->
  click p b = Some startIndex ->
  exists page : nat, startIndex = 20 * Z.of_nat page.
Proof.
  intros Hp.
  assert (exists (page : nat) count,
            p = createFreeAgentPagination (20 * Z.of_nat page) count) as Hinv.
  { induction Hp as [n|p b' s n Hp IH Hclick].
    - by exists 0%nat, (Z.of_nat n).
    - destruct IH as (page & count & ->).
      destruct b'; simpl in Hclick.
      + destruct (Z.eqb_spec (20 * Z.of_nat page) 0); [done|].
        injection Hclick as <-. destruct page as [|page]; [lia|].
        exists page, (Z.of_nat n). f_equal. lia.
      + destruct (count <? 20); [done|]. injection Hclick as <-.
        exists (S page), (Z.of_nat n). f_equal. lia. }
  destruct Hinv as (page & count & ->). destruct b; simpl.
  - destruct (Z.eqb_spec (20 * Z.of_nat page) 0); [done|].
    intros [= <-]. destruct page as [|page]; [lia|]. exists page. lia.
  - destruct (count <? 20); [done|]. intros [= <-]. exists (S page). lia.
Qed.

Lemma pagination_start_index_witness :
  exists page : nat, 20 = 20 * Z.of_nat page.
Proof.
  apply (pagination_start_index (createFreeAgentPagination 0 (Z.of_nat 20)) Next 20).
  - apply rendered_first.
  - reflexivity.
Defined.

(** ** The team selectors *)

Lemma set_value_in (sel : Select) (v : string) :
  v ∈ sel_options sel -> sel_value (set_value sel v) = v.
Proof. intros Hv. unfold set_value. simpl. by rewrite bool_decide_eq_true_2. Qed.

Lemma set_value_notin (sel : Select) (v : string) :
  v ∉ sel_options sel -> sel_value (set_value sel v) = "".
Proof. intros Hv. unfold set_value. simpl. by rewrite bool_decide_eq_false_2. Qed.

(** Among two or more distinct names there is one different from any given
    string. *)
Lemma find_other (names : list string) (v : string) :
  NoDup names -> (1 < length names)%nat ->
  exists n,
    find_first (fun name => negb (String.eqb name v)) names = Some n /\
    n ∈ names /\ n <> v.
Proof.
  intros Hnd Hlen. unfold find_first.
  destruct (List.find _ names) as [n|] eqn:Hfind.
  - apply find_some in Hfind as [Hin Hne]. exists n.
    split; [done|]. split; [by apply list_elem_of_In|].
    apply negb_true_iff, String.eqb_neq in Hne. done.
  - exfalso. destruct names as [|a [|b names]]; simpl in Hlen; [lia..|].
    pose proof (find_none _ _ Hfind a (or_introl eq_refl)) as Ha.
    pose proof (find_none _ _ Hfind b (or_intror (or_introl eq_refl))) as Hb.
    simpl in Ha, Hb.
    apply negb_false_iff, String.eqb_eq in Ha, Hb. subst.
    apply NoDup_cons in Hnd as [Hnd _]. set_solver.
Qed.

(** X8.  After [populateTeamSelectors] on two or more teams, the two
    selectors never hold the same value.  Both offer the team names; the
    selection of My Team is kept when it is still a team and cleared
    otherwise, and the selection of Opponent is kept when it is still a
    team and differs from My Team. *)
Theorem populateTeamSelectors_distinct
    (myTeamSel opponentSel : Select) (teamNames : list string) :
  NoDup teamNames -> (1 < length teamNames)%nat ->
  let result := populateTeamSelectors myTeamSel opponentSel teamNames in
  sel_value result.1 <> sel_value result.2 /\
  sel_options result.1 = teamNames /\
  sel_options result.2 = teamNames /\
  (sel_value myTeamSel ∈ teamNames ->
     sel_value result.1 = sel_value myTeamSel) /\
  (sel_value myTeamSel ∉ teamNames -> sel_value result.1 = "") /\
  (sel_value opponentSel ∈ teamNames ->
     sel_value opponentSel <> sel_value result.1 ->
     sel_value result.2 = sel_value opponentSel).
Proof.
  intros Hnd Hlen. unfold populateTeamSelectors.
  set (my := set_value (mkSelect teamNames "") (sel_value myTeamSel)).
  set (opp := set_value (mkSelect teamNames "") (sel_value opponentSel)).
  assert (sel_value myTeamSel ∈ teamNames -> sel_value my = sel_value myTeamSel)
    as Hkeep by (intros ?; by apply set_value_in).
  assert (sel_value myTeamSel ∉ teamNames -> sel_value my = "")
    as Hclear by (intros ?; by apply set_value_notin).
  assert ((1 <? Z.of_nat (length teamNames)) = true) as ->
    by (apply Z.ltb_lt; lia).
  rewrite andb_true_r.
  destruct (String.eqb_spec (sel_value my) (sel_value opp)) as [Heq|Hne];
    cbv iota zeta.
  - destruct (find_other teamNames (sel_value my) Hnd Hlen) as (n & -> & Hn & Hne).
    cbn [fst snd default from_option id].
    rewrite (set_value_in opp n) by exact Hn.
    repeat split; try done. intros Hin Hdiff. exfalso. apply Hdiff.
    rewrite Heq. symmetry. by apply set_value_in.
  - repeat split; try done. intros Hin _. by apply set_value_in.
Qed.

Lemma populateTeamSelectors_distinct_witness :
  let result :=
    populateTeamSelectors (mkSelect ["Loading..."] "Loading...")
                          (mkSelect ["Loading..."] "Loading...")
                          ["Aces"; "Bears"; "Colts"] in
  sel_value result.1 <> sel_value result.2 /\
  sel_options result.1 = ["Aces"; "Bears"; "Colts"] /\
  sel_options result.2 = ["Aces"; "Bears"; "Colts"] /\
  ("Loading..." ∈ ["Aces"; "Bears"; "Colts"] -> sel_value result.1 = "Loading...") /\
  ("Loading..." ∉ ["Aces"; "Bears"; "Colts"] -> sel_value result.1 = "") /\
  ("Loading..." ∈ ["Aces"; "Bears"; "Colts"] ->
     "Loading..." <> sel_value result.1 -> sel_value result.2 = "Loading...").
Proof.
  apply (populateTeamSelectors_distinct
           (mkSelect ["Loading..."] "Loading...")
           (mkSelect ["Loading..."] "Loading...")
           ["Aces"; "Bears"; "Colts"]).
  - apply NoDup_ListNoDup. repeat constructor; simpl; intuition discriminate.
  - simpl. lia.
Defined.

(** ** The transaction simulator *)



Lemma updateRows_head (fas roster : list Player) (row : TransactionRow)
    (rest : list TransactionRow) :
  head (updateRows fas roster row rest) = Some row.
Proof. by destruct rest. Qed.



Lemma find_first_name (fas : list Player) (n : string) (fa : Player) :
  find_first (has_name n) fas = Some fa -> name fa = Some n.
Proof.
  unfold find_first. intros [_ H]%find_some.
  unfold has_name in H. by apply bool_decide_eq_true in H.
Qed.

(** A simulated row leaves nobody of the dropped name, unless it adds a
    free agent of that name. *)
Lemma simulate_row_dropped (fas roster : list Player) (add d : string) :
  d <> "" -> add <> d ->
  Forall (fun p => name p <> Some d) (simulate_row fas roster add d).
Proof.
  intros Hd Hadd. unfold simulate_row.
  apply String.eqb_neq in Hd as ->.
  assert (Forall (fun p => name p <> Some d)
                 (List.filter (fun p => negb (has_name d p)) roster)) as Hfilter.
  { apply Forall_forall. intros p Hp. apply list_elem_of_In, filter_In in Hp.
    destruct Hp as [_ Hp]. apply negb_true_iff in Hp.
    unfold has_name in Hp. by apply bool_decide_eq_false in Hp. }
  destruct (String.eqb add ""); [done|].
  destruct (find_first _ fas) as [fa|] eqn:Hfa; [|done].
  apply Forall_app. split; [done|]. constructor; [|constructor].
  rewrite (find_first_name _ _ _ Hfa). congruence.
Qed.

Lemma simulate_row_absent (fas roster : list Player) (add drop d : string) :
  add <> d ->
  Forall (fun p => name p <> Some d) roster ->
  Forall (fun p => name p <> Some d) (simulate_row fas roster add drop).
Proof.
  intros Hadd Habs. unfold simulate_row.
  assert (Forall (fun p => name p <> Some d)
                 (if String.eqb drop "" then roster
                  else List.filter (fun p => negb (has_name drop p)) roster))
    as Hfilter.
  { destruct (String.eqb drop ""); [done|].
    apply Forall_forall. intros p Hp. apply list_elem_of_In, filter_In in Hp.
    destruct Hp as [Hp _]. rewrite Forall_forall in Habs.
    by apply Habs, list_elem_of_In. }
  destruct (String.eqb add ""); [done|].
  destruct (find_first _ fas) as [fa|] eqn:Hfa; [|done].
  apply Forall_app. split; [done|]. constructor; [|constructor].
  rewrite (find_first_name _ _ _ Hfa). congruence.
Qed.

Lemma refill_drop_absent (roster : list Player) (sel : Select) (d : string) :
  d <> "" ->
  Forall (fun p => name p <> Some d) roster ->
  (d ∉ sel_options (refill_drop roster sel)) /\
  sel_value (refill_drop roster sel) <> d.
Proof.
  intros Hd Habs.
  assert (d ∉ "" :: map option_value roster) as Hnot.
  { intros [?|Hin]%elem_of_cons; [done|].
    apply list_elem_of_fmap in Hin as (p & Hp & Hin).
    rewrite Forall_forall in Habs. apply (Habs p Hin).
    unfold option_value in Hp. destruct (name p); simpl in Hp; congruence. }
  split; [done|]. unfold refill_drop, set_value. simpl.
  case_bool_decide as Hsel; [|done]. intros Heq. by rewrite Heq in Hsel.
Qed.

Lemma updateRows_absent (fas : list Player) (d : string)
    (rest : list TransactionRow) :
  d <> "" ->
  forall roster row n row_n,
    Forall (fun p => name p <> Some d)
           (simulate_row fas roster (add_value row) (sel_value (drop_select row))) ->
    (forall k r, (k < n)%nat -> rest !! k = Some r -> add_value r <> d) ->
    updateRows fas roster row rest !! S n = Some row_n ->
    (d ∉ sel_options (drop_select row_n)) /\
    sel_value (drop_select row_n) <> d.
Proof.
  intros Hd. induction rest as [|next rest IH]; intros roster row n row_n Habs Hadds;
    [done|].
  simpl. destruct n as [|n].
  - rewrite <- head_lookup, updateRows_head. intros [= <-]. simpl.
    by apply refill_drop_absent.
  - apply IH.
    + simpl. apply simulate_row_absent; [|done].
      apply (Hadds 0%nat next); [lia | done].
    + intros k r Hk Hr. apply (Hadds (S k) r); [lia | done].
Qed.

(** The rows from row [i] on are the loop run from row [i] with some
    simulated roster; the add selectors are never touched. *)
Lemma updateRows_from (fas : list Player) (rest : list TransactionRow) :
  forall roster row i row_i,
    updateRows fas roster row rest !! i = Some row_i ->
    (exists r, (row :: rest) !! i = Some r /\ add_value r = add_value row_i) /\
    exists roster_i,
      drop i (updateRows fas roster row rest) =
        updateRows fas roster_i row_i (drop i rest).
Proof.
  induction rest as [|next rest IH]; intros roster row i row_i Hi.
  - destruct i as [|i]; [|done]. injection Hi as <-.
    split; [by exists row | by exists roster].
  - destruct i as [|i].
    + injection Hi as <-. split; [by exists row | by exists roster].
    + simpl in Hi. apply IH in Hi as [(r & Hr & Hadd) (roster_i & Hdrop)].
      split; [|by exists roster_i].
      destruct i as [|i]; [|by exists r].
      injection Hr as <-. by exists next.
Qed.

(** X10.  After [updateDynamicRoster], a player selected for a drop in one
    row is neither offered nor selected in the drop selector of any later
    row, unless a row in between (that row included) adds a free agent of
    the same name. *)
Theorem updateDynamicRoster_no_second_drop
    (myRoster allFreeAgents : list Player) (rows : list TransactionRow)
    (i j : nat) (row_i row_j : TransactionRow) :
  (i < j)%nat ->
  updateDynamicRoster myRoster allFreeAgents rows !! i = Some row_i ->
  updateDynamicRoster myRoster allFreeAgents rows !! j = Some row_j ->
  sel_value (drop_select row_i) <> "" ->
  (forall k r, (i <= k < j)%nat -> rows !! k = Some r ->
     add_value r <> sel_value (drop_select row_i)) ->
  (sel_value (drop_select row_i) ∉ sel_options (drop_select row_j)) /\
  sel_value (drop_select row_j) <> sel_value (drop_select row_i).
Proof.
  intros Hij Hi Hj Hd Hadds.
  destruct rows as [|row rest]; [done|]. simpl in Hi, Hj.
  apply updateRows_from in Hi as [(r & Hr & Hadd) (roster_i & Hdrop)].
  assert (updateRows allFreeAgents roster_i row_i (drop i rest)
            !! S (j - i - 1) = Some row_j) as Hlater.
  { rewrite <- Hdrop, lookup_drop. rewrite <- Hj. f_equal. lia. }
  eapply updateRows_absent; [exact Hd | | | exact Hlater].
  - apply simulate_row_dropped; [done|]. rewrite <- Hadd.
    apply (Hadds i r); [lia | done].
  - intros k r' Hk Hr'. rewrite lookup_drop in Hr'.
    apply (Hadds (S (i + k)) r'); [lia | done].
Qed.

Lemma updateDynamicRoster_no_second_drop_witness :
  ("Adams" ∉ sel_options (mkSelect [""; "Brown"; "Cole"] "")) /\
  sel_value (mkSelect [""; "Brown"; "Cole"] "") <> "Adams".
Proof.
  apply (updateDynamicRoster_no_second_drop [adams; brown] [cole; davis]
           [mkTransactionRow "Cole" (mkSelect [""; "Adams"; "Brown"] "Adams");
            mkTransactionRow "" (mkSelect [""; "Adams"; "Brown"] "Adams")]
           0 1
           (mkTransactionRow "Cole" (mkSelect [""; "Adams"; "Brown"] "Adams"))
           (mkTransactionRow "" (mkSelect [""; "Brown"; "Cole"] ""))).
  - lia.
  - reflexivity.
  - vm_compute. reflexivity.
  - discriminate.
  - intros k r Hk Hr. assert (k = 0%nat) as -> by lia.
    injection Hr as <-. discriminate.
Defined.

(** ** Sorting the rendered table *)

Lemma sort_sorted_id {A} (cmp : A -> A -> Z) (l : list A) :
  StronglySorted (ordered cmp) l -> sort cmp l = l.
Proof.
  induction 1 as [|x l Hl IH Hx]; [done|].
  rewrite sort_cons, IH. destruct Hx as [|y l Hy _]; simpl; [done|].
  unfold ordered in Hy. destruct (Z.ltb_spec 0 (cmp x y)); [lia | done].
Qed.

Lemma ranked_current (p : Player) :
  cat_coverage_rank p = Some (computeCoverageRank p) -> ranked p = p.
Proof.
  destruct p. unfold ranked, set_cat_coverage_rank. simpl. by intros ->.
Qed.

Lemma comparator_ranked (cfg : SortState) (a b : Player) :
  key cfg <> "cat_coverage_rank" ->
  comparator cfg (ranked a) (ranked b) = comparator cfg a b.
Proof.
  intros Hk%String.eqb_neq. unfold comparator. by rewrite Hk.
Qed.

Lemma populateTableBody_ranked (players : list Player) :
  populateTableBody (map ranked players) =
    (map ranked players, (populateTableBody players).2).
Proof.
  destruct players as [|p players]; [done|].
  unfold populateTableBody. cbn [map snd]. f_equal.
  - f_equal. rewrite map_map. by apply map_ext.
  - f_equal. f_equal. rewrite map_map. by apply map_ext.
Qed.

Lemma sortAndRerenderTable_unfold (page : Page) (cfg : SortState) :
  sortAndRerenderTable page cfg =
    mkPage (map ranked (sort (comparator cfg) (allAvailablePlayersData page)))
           (currentSort page) (rosterTable page)
           (populateTableBody
              (sort (comparator cfg) (allAvailablePlayersData page))).2.
Proof.
  unfold sortAndRerenderTable. rewrite <- populateTableBody_players.
  by destruct (populateTableBody _).
Qed.

Lemma sort_ranked_sorted (cfg : SortState) (players : list Player) :
  key cfg <> "cat_coverage_rank" \/
  Forall (fun p => cat_coverage_rank p = Some (computeCoverageRank p)) players ->
  sort (comparator cfg) (map ranked (sort (comparator cfg) players)) =
    map ranked (sort (comparator cfg) players).
Proof.
  intros Hcase. apply sort_sorted_id. destruct Hcase as [Hk|Hcur].
  - pose proof (sort_rows_sorted cfg players) as Hs.
    induction Hs as [|x l Hl IH Hx]; simpl; constructor; [done|].
    apply Forall_fmap. eapply Forall_impl; [exact Hx|].
    intros y Hy. unfold ordered, compose in *. by rewrite comparator_ranked.
  - assert (map ranked (sort (comparator cfg) players) =
            sort (comparator cfg) players) as ->; [|apply sort_rows_sorted].
    rewrite <- (sort_perm (comparator cfg)) in Hcur.
    induction Hcur as [|x l Hx _ IH]; simpl; [done|].
    by rewrite ranked_current, IH.
Qed.

(** X11.  Sorting again by the same sort state changes nothing, neither the
    stored order nor the table, once the table has been rendered; under
    every key other than [cat_coverage_rank] this holds already for the
    first sort after a fetch. *)
Theorem sortAndRerenderTable_idempotent :
  (forall page first cfg,
     let shown := sortAndRerenderTable page first in
     sortAndRerenderTable (sortAndRerenderTable shown cfg) cfg =
       sortAndRerenderTable shown cfg) /\
  (forall page cfg,
     key cfg <> "cat_coverage_rank" ->
     sortAndRerenderTable (sortAndRerenderTable page cfg) cfg =
       sortAndRerenderTable page cfg).
Proof.
  assert (forall page cfg,
            key cfg <> "cat_coverage_rank" \/
            Forall (fun p => cat_coverage_rank p = Some (computeCoverageRank p))
                   (allAvailablePlayersData page) ->
            sortAndRerenderTable (sortAndRerenderTable page cfg) cfg =
              sortAndRerenderTable page cfg) as Hidem.
  { intros page cfg Hcase.
    rewrite (sortAndRerenderTable_unfold (sortAndRerenderTable page cfg)).
    rewrite !sortAndRerenderTable_unfold. simpl.
    rewrite sort_ranked_sorted by done.
    rewrite populateTableBody_ranked. simpl. f_equal.
    rewrite map_map. by apply map_ext. }
  split.
  - intros page first cfg shown. apply Hidem. right.
    apply sortAndRerenderTable_ranks.
  - intros page cfg Hk. apply Hidem. by left.
Qed.

Lemma sortAndRerenderTable_idempotent_witness :
  sortAndRerenderTable
    (sortAndRerenderTable (mkPage [adams; brown] (mkSort "pts" desc)
                                  NoPlayersFound NoPlayersFound)
                          (mkSort "pts" desc))
    (mkSort "pts" desc) =
  sortAndRerenderTable (mkPage [adams; brown] (mkSort "pts" desc)
                               NoPlayersFound NoPlayersFound)
                       (mkSort "pts" desc).
Proof. apply (proj2 sortAndRerenderTable_idempotent). discriminate. Defined.

Lemma headerClick_players (page : Page) (k : string) :
  allAvailablePlayersData (headerClick page k) ≡ₚ
    map ranked (allAvailablePlayersData page) /\
  availablePlayersTable (headerClick page k) =
    (populateTableBody (allAvailablePlayersData (headerClick page k))).2 /\
  rosterTable (headerClick page k) = rosterTable page /\
  Forall (fun p => cat_coverage_rank p = Some (computeCoverageRank p))
         (allAvailablePlayersData (headerClick page k)).
Proof.
  unfold headerClick. split; [|split; [|split]].
  - rewrite sortAndRerenderTable_data. simpl. by rewrite sort_perm.
  - rewrite sortAndRerenderTable_unfold. simpl.
    by rewrite populateTableBody_ranked.
  - by rewrite sortAndRerenderTable_unfold.
  - apply sortAndRerenderTable_ranks.
Qed.

(** X12.  However many headers are clicked, and whichever, the stored
    players are the fetched ones, each once, changed at most in
    [cat_coverage_rank], which holds the rank computed from the
    projections; the table body shows exactly the stored players in the
    stored order; the roster table is not touched. *)
Theorem headerClick_keeps_players (page : Page) (keys : list string) :
  keys <> [] ->
  let shown := foldl headerClick page keys in
  allAvailablePlayersData shown ≡ₚ map ranked (allAvailablePlayersData page) /\
  availablePlayersTable shown =
    (populateTableBody (allAvailablePlayersData shown)).2 /\
  rosterTable shown = rosterTable page /\
  Forall (fun p => cat_coverage_rank p = Some (computeCoverageRank p))
         (allAvailablePlayersData shown).
Proof.
  induction keys as [|k keys IH] using rev_ind; [done|]. intros _.
  rewrite foldl_app. simpl.
  destruct (headerClick_players (foldl headerClick page keys) k)
    as (Hperm & Htable & Hroster & Hcur).
  split; [|split; [|split]]; [|done| |done].
  - rewrite Hperm. destruct keys as [|k' keys]; [done|].
    destruct IH as (IHperm & _); [done|]. rewrite IHperm.
    rewrite map_map. by erewrite map_ext.
  - rewrite Hroster. destruct keys as [|k' keys]; [done|].
    by destruct IH as (_ & _ & IHroster & _).
Qed.

Lemma headerClick_keeps_players_witness :
  let shown :=
    foldl headerClick
          (mkPage [adams; brown] (mkSort "cat_coverage_rank" asc)
                  NoPlayersFound NoPlayersFound)
          ["pts"; "pts"; "name"] in
  allAvailablePlayersData shown ≡ₚ map ranked [adams; brown] /\
  availablePlayersTable shown =
    (populateTableBody (allAvailablePlayersData shown)).2 /\
  rosterTable shown = NoPlayersFound /\
  Forall (fun p => cat_coverage_rank p = Some (computeCoverageRank p))
         (allAvailablePlayersData shown).
Proof.
  apply (headerClick_keeps_players
           (mkPage [adams; brown] (mkSort "cat_coverage_rank" asc)
                   NoPlayersFound NoPlayersFound)
           ["pts"; "pts"; "name"]).
  discriminate.
Defined.

Lemma StronglySorted_reverse {A} (R : A -> A -> Prop) (l : list A) :
  StronglySorted R l -> StronglySorted (fun x y => R y x) (reverse l).
Proof.
  induction 1 as [|x l Hl IH Hx]; [apply SSorted_nil|].
  rewrite reverse_cons. apply StronglySorted_app. split; [|split].
  - intros y z Hy Hz. rewrite elem_of_reverse in Hy.
    apply list_elem_of_singleton in Hz as ->.
    rewrite Forall_forall in Hx. by apply Hx.
  - done.
  - repeat constructor.
Qed.

Lemma filter_at_most_one {A} (P : A -> Prop) `{!forall x, Decision (P x)}
    (l : list A) :
  (forall i j a b, i <> j -> l !! i = Some a -> l !! j = Some b ->
     P a -> P b -> False) ->
  (length (filter P l) <= 1)%nat.
Proof.
  induction l as [|x l IH]; intros Hone; [simpl; lia|].
  rewrite filter_cons. destruct (decide (P x)) as [Hx|Hx].
  - assert (filter P l = []) as ->; [|simpl; lia].
    destruct (filter P l) as [|y rest] eqn:Hf; [done|]. exfalso.
    assert (y ∈ filter P l) as Hy by (rewrite Hf; left).
    apply list_elem_of_filter in Hy as [Py Hy].
    apply list_elem_of_lookup in Hy as [j Hj].
    by apply (Hone 0%nat (S j) x y).
  - apply IH. intros i j a b Hij Ha Hb. by apply (Hone (S i) (S j) a b); [lia|..].
Qed.

Lemma reverse_short {A} (l : list A) : (length l <= 1)%nat -> reverse l = l.
Proof. destruct l as [|x [|y l]]; simpl; intros; [reflexivity..|lia]. Qed.

Lemma comparator_desc (k : string) (a b : Player) :
  comparator (mkSort k desc) a b = - comparator (mkSort k asc) a b.
Proof. reflexivity. Qed.

(** X13.  Where no two rows tie under a key, the descending sort is the
    ascending sort reversed: a second click on a header turns the table
    upside down. *)
Theorem sort_descending_reverses (k : string) (players : list Player) :
  (forall i j a b, i <> j -> players !! i = Some a -> players !! j = Some b ->
     comparator (mkSort k asc) a b <> 0) ->
  sort (comparator (mkSort k desc)) players =
    reverse (sort (comparator (mkSort k asc)) players).
Proof.
  intros Hties. symmetry. apply sort_rows_determined.
  - by rewrite reverse_Permutation, sort_perm.
  - eapply StronglySorted_weaken;
      [|apply StronglySorted_reverse, (sort_rows_sorted (mkSort k asc))].
    intros x y. unfold ordered. rewrite comparator_desc.
    rewrite (comparator_antisym _ y x). lia.
  - intros z.
    rewrite (list_filter_iff _ (fun y => comparator (mkSort k asc) z y = 0));
      [|intros y; rewrite comparator_desc; lia].
    rewrite (list_filter_iff (fun y => comparator (mkSort k desc) z y = 0)
               (fun y => comparator (mkSort k asc) z y = 0) players);
      [|intros y; rewrite comparator_desc; lia].
    rewrite filter_reverse, sort_filter_ties;
      [|intros x y w Hx Hy; by rewrite (comparator_ties _ x y w)].
    apply reverse_short, filter_at_most_one.
    intros i j a b Hij Ha Hb Hza Hzb.
    apply (Hties i j a b Hij Ha Hb). by apply (comparator_ties _ a b z).
Qed.

Lemma sort_descending_reverses_witness :
  sort (comparator (mkSort "pts" desc)) [adams; brown] =
    reverse (sort (comparator (mkSort "pts" asc)) [adams; brown]).
Proof.
  apply (sort_descending_reverses "pts" [adams; brown]).
  intros i j a b Hij Ha Hb.
  destruct i as [|[|i]], j as [|[|j]]; simplify_eq/=; vm_compute; discriminate.
Defined.

(** ** More on back-to-back days *)

Lemma next_day_dayOrder (d1 d2 : string) :
  next_day d1 d2 -> d1 ∈ dayOrder /\ d2 ∈ dayOrder.
Proof.
  intros (i & H1 & H2). split; by eapply list_elem_of_lookup_2.
Qed.

Lemma markBackToBack_lookup (days : list string) (j : nat) (d : string) :
  days !! j = Some d <-> exists e, markBackToBack days !! j = Some (d, e).
Proof.
  rewrite <- (markBackToBack_days days) at 1. rewrite list_lookup_fmap.
  destruct (markBackToBack days !! j) as [[d' e]|]; simpl; naive_solver.
Qed.

(** X14.  Emphasis comes in pairs: next to every emphasized day of the
    canonical week, one position before or after it in the week, another
    entry of the list is emphasized as well. *)
Theorem markBackToBack_paired (days : list string) (i : nat) (day : string) :
  day ∈ dayOrder ->
  markBackToBack days !! i = Some (day, true) ->
  exists j d,
    j <> i /\ markBackToBack days !! j = Some (d, true) /\
    (next_day d day \/ next_day day d).
Proof.
  intros Hday Hi.
  assert (days !! i = Some day) as Hdi by (apply markBackToBack_lookup; eauto).
  destruct (proj1 (markBackToBack_iff days i day true Hday Hi) eq_refl)
    as (d & Hd & Hadj).
  apply list_elem_of_lookup in Hd as [j Hj].
  exists j, d.
  assert (d ∈ dayOrder) as Hdo.
  { destruct Hadj as [H|H]; apply next_day_dayOrder in H; tauto. }
  split; [|split; [|done]].
  - intros ->. rewrite Hdi in Hj. injection Hj as ->.
    destruct Hadj as [H|H]; by apply next_day_irrefl in H.
  - destruct (proj1 (markBackToBack_lookup days j d) Hj) as [e He].
    rewrite He. do 2 f_equal.
    apply (markBackToBack_iff days j d e Hdo He).
    exists day. split; [by eapply list_elem_of_lookup_2 | tauto].
Qed.

Lemma markBackToBack_paired_witness :
  exists j d,
    j <> 0%nat /\
    markBackToBack ["Mon"; "Tue"; "Fri"] !! j = Some (d, true) /\
    (next_day d "Mon" \/ next_day "Mon" d).
Proof.
  apply (markBackToBack_paired ["Mon"; "Tue"; "Fri"] 0 "Mon").
  - unfold dayOrder. apply list_elem_of_here.
  - vm_compute. reflexivity.
Defined.

Lemma indexOf_notin (l : list string) (x : string) :
  x ∉ l -> indexOf l x = -1.
Proof.
  induction l as [|y l IH]; [done|]. intros Hx.
  apply not_elem_of_cons in Hx as [Hne Hx]. simpl.
  destruct (String.eqb_spec y x); [congruence|]. by rewrite IH.
Qed.

(** X15.  A token that is not a day of the canonical week is treated as the
    day before Monday: in a list of two or more tokens it is emphasized
    exactly when [Mon] is in the list. *)
Theorem markBackToBack_unknown_token
    (days : list string) (i : nat) (day : string) (e : bool) :
  day ∉ dayOrder ->
  (2 <= length days)%nat ->
  markBackToBack days !! i = Some (day, e) ->
  e = true <-> "Mon" ∈ days.
Proof.
  intros Hday Hlen. unfold markBackToBack.
  destruct (Z.ltb_spec (Z.of_nat (length days)) 2); [lia|].
  rewrite list_lookup_fmap.
  destruct (days !! i) as [d|]; [|done]. simpl. intros [= -> <-].
  unfold isB2B. rewrite indexOf_notin by done. simpl.
  by rewrite bool_decide_eq_true, elem_of_list_to_set.
Qed.

Lemma markBackToBack_unknown_token_witness :
  true = true <-> "Mon" ∈ ["Mon"; "TBD"].
Proof.
  apply (markBackToBack_unknown_token ["Mon"; "TBD"] 1 "TBD" true).
  - unfold dayOrder. intros H.
    repeat (apply elem_of_cons in H as [H|H]; [discriminate H|]).
    by apply elem_of_nil in H.
  - simpl. lia.
  - vm_compute. reflexivity.
Defined.

Lemma startsWith_app (s sep : string) :
  startsWith s sep = true -> exists t, s = sep +:+ t.
Proof.
  revert s. induction sep as [|c sep IH]; intros s; simpl.
  - by exists s.
  - destruct s as [|d s]; [done|].
    intros [Hc Hs]%andb_true_iff. apply Ascii.eqb_eq in Hc as <-.
    destruct (IH s Hs) as [t ->]. by exists t.
Qed.

Lemma concat_cons (sep x : string) (l : list string) :
  l <> [] -> String.concat sep (x :: l) = x +:+ sep +:+ String.concat sep l.
Proof. by destruct l. Qed.

Lemma append_assoc (s t u : string) : (s +:+ t) +:+ u = s +:+ (t +:+ u).
Proof. induction s as [|c s IH]; [done | by rewrite !append_cons, IH]. Qed.

(** Joining what [split] yields gives the string back. *)
Lemma join_split_go (sep : string) :
  sep <> "" ->
  forall s skip cur pre rest,
    s = pre +:+ rest -> String.length pre = skip ->
    String.concat sep (split_go sep s skip cur) = cur +:+ rest.
Proof.
  intros Hsep. induction s as [|c s IH]; intros skip cur pre rest Hs Hlen.
  - destruct pre; [|done]. change ("" +:+ rest) with rest in Hs. subst rest.
    simpl. by rewrite append_nil_r.
  - destruct skip as [|skip].
    + destruct pre; [|done]. change ("" +:+ rest) with rest in Hs. subst rest.
      cbn [split_go]. destruct (startsWith (String c s) sep) eqn:Hstart.
      * apply startsWith_app in Hstart as [t Ht].
        destruct sep as [|c' sep]; [done|].
        rewrite append_cons in Ht. injection Ht as <- ->.
        rewrite concat_cons.
        2: { pose proof (split_go_length (String c sep) (sep +:+ t)
                           (Nat.pred (String.length (String c sep))) "") as Hl.
             intros Hnil. rewrite Hnil in Hl. simpl in Hl. lia. }
        rewrite (IH _ "" sep t) by done.
        change ("" +:+ t) with t. by rewrite append_cons.
      * rewrite (IH 0%nat _ "" s) by done. change ("" +:+ s) with s.
        by rewrite append_snoc.
    + destruct pre as [|c' pre]; [done|].
      rewrite append_cons in Hs. injection Hs as <- ->.
      simpl in Hlen. injection Hlen as Hlen.
      cbn [split_go]. by apply (IH skip cur pre rest).
Qed.

Lemma join_split (s sep : string) : sep <> "" -> join (split s sep) sep = s.
Proof.
  intros Hsep. unfold join, split.
  by rewrite (join_split_go sep Hsep s 0%nat "" "" s).
Qed.

(** X16.  Where no token of the day string has a neighbour that counts as
    back-to-back, [formatBackToBackDays] returns the string exactly as it
    was given, separators and spelling included. *)
Theorem formatBackToBackDays_unchanged (s : string) :
  (forall day, day ∈ split s ", " ->
     isB2B (list_to_set (split s ", ")) day = false) ->
  formatBackToBackDays (Some s) = s.
Proof.
  intros Hnone. destruct s as [|c s]; [done|].
  unfold formatBackToBackDays.
  destruct (Z.of_nat (length (split (String c s) ", ")) <? 2); [done|].
  transitivity (join (split (String c s) ", ") ", ");
    [|by apply join_split].
  f_equal. transitivity (map id (split (String c s) ", ")); [|apply map_id].
  apply map_ext_in. intros day Hday. apply list_elem_of_In in Hday.
  by rewrite Hnone.
Qed.

Lemma formatBackToBackDays_unchanged_witness :
  formatBackToBackDays (Some "Mon, Wed, Sat") = "Mon, Wed, Sat".
Proof.
  apply formatBackToBackDays_unchanged.
  intros day Hday.
  assert (split "Mon, Wed, Sat" ", " = ["Mon"; "Wed"; "Sat"]) as Hsplit
    by (vm_compute; reflexivity).
  rewrite Hsplit in *.
  repeat (apply elem_of_cons in Hday as [->|Hday]; [vm_compute; reflexivity|]).
  by apply elem_of_nil in Hday.
Defined.

(** ** The heatmap gradient *)

(** X17.  The heatmap is monotone: of two ranks that get a colour, the
    better (lower) rank gets the strictly larger hue, and every hue lies
    between 0 (red) and 120 (green). *)
Theorem getRankColor_monotone (r s : Z) (a b : Style) :
  getRankColor (Val r) = Some a ->
  getRankColor (Val s) = Some b ->
  r < s ->
  PrimFloat.ltb (hue b) (hue a) = true /\
  PrimFloat.leb 0 (hue b) = true /\
  PrimFloat.leb (hue a) 120 = true.
Proof.
  intros Ha Hb Hrs.
  assert (valid_rank (Val r)) as (r' & [= <-] & Hr)
    by (apply getRankColor_is_Some; eauto).
  assert (valid_rank (Val s)) as (s' & [= <-] & Hs)
    by (apply getRankColor_is_Some; eauto).
  assert (forallb (fun r =>
            forallb (fun s =>
                       match getRankColor (Val r), getRankColor (Val s) with
                       | Some a, Some b =>
                           implb (r <? s)
                                 (PrimFloat.ltb (hue b) (hue a)
                                  && PrimFloat.leb 0 (hue b)
                                  && PrimFloat.leb (hue a) 120)
                       | _, _ => false
                       end)
                    (seqZ 1 20))
            (seqZ 1 20) = true) as Hall by (vm_compute; reflexivity).
  rewrite forallb_forall in Hall. specialize (Hall r).
  rewrite forallb_forall in Hall.
  assert (In r (seqZ 1 20)) as Hinr by (apply list_elem_of_In, elem_of_seqZ; lia).
  assert (In s (seqZ 1 20)) as Hins by (apply list_elem_of_In, elem_of_seqZ; lia).
  specialize (Hall Hinr s Hins). rewrite Ha, Hb in Hall.
  apply Z.ltb_lt in Hrs. rewrite Hrs in Hall. simpl in Hall.
  apply andb_true_iff in Hall as [Hall H3].
  apply andb_true_iff in Hall as [H1 H2]. done.
Qed.

Lemma getRankColor_monotone_witness :
  PrimFloat.ltb (hue (mkStyle 0%float 70 85 "#333"))
                (hue (mkStyle 120%float 70 85 "#333")) = true /\
  PrimFloat.leb 0 (hue (mkStyle 0%float 70 85 "#333")) = true /\
  PrimFloat.leb (hue (mkStyle 120%float 70 85 "#333")) 120 = true.
Proof.
  apply (getRankColor_monotone 1 20); [vm_compute; reflexivity.. | lia].
Defined.

(** ** The order of the rendered table *)

Lemma StronglySorted_map {A B} (R : A -> A -> Prop) (R' : B -> B -> Prop)
    (f : A -> B) (l : list A) :
  (forall x y, R x y -> R' (f x) (f y)) ->
  StronglySorted R l -> StronglySorted R' (map f l).
Proof.
  intros HR. induction 1 as [|x l Hl IH Hx]; simpl; constructor; [done|].
  apply Forall_fmap. eapply Forall_impl; [exact Hx|]. intros y Hy. by apply HR.
Qed.

(** X18.  After a sort by a stat key the stored rows, and so the table, are
    in the order of that stat: by falling value for a descending sort and by
    rising value for an ascending one, a missing value counting -1; under
    [gaa] the two are exchanged, so that the descending [gaa] sort lists the
    lowest value first. *)
Theorem sortAndRerenderTable_ordered (page : Page) (cfg : SortState) :
  stat_key (key cfg) ->
  StronglySorted (stat_ordered cfg)
                 (allAvailablePlayersData (sortAndRerenderTable page cfg)).
Proof.
  intros Hk. rewrite sortAndRerenderTable_data.
  eapply StronglySorted_map; [|apply sort_rows_sorted].
  intros a b. unfold ordered, stat_ordered.
  change (stat_value (key cfg) (ranked a)) with (stat_value (key cfg) a).
  change (stat_value (key cfg) (ranked b)) with (stat_value (key cfg) b).
  rewrite comparator_stat by done. unfold numeric_comparison.
  pose proof (compare_num_swap (stat_value (key cfg) a) (stat_value (key cfg) b))
    as Hswap.
  pose proof (compare_num_le (stat_value (key cfg) a) (stat_value (key cfg) b))
    as Hab.
  pose proof (compare_num_le (stat_value (key cfg) b) (stat_value (key cfg) a))
    as Hba.
  destruct (String.eqb (key cfg) "gaa"), (direction cfg); simpl; intros Hle.
  - apply Hba. lia.
  - apply Hab. lia.
  - apply Hab. lia.
  - apply Hba. lia.
Qed.

Lemma sortAndRerenderTable_ordered_witness :
  StronglySorted (stat_ordered (mkSort "gaa" desc))
    (allAvailablePlayersData
       (sortAndRerenderTable
          (mkPage [adams; cole] (mkSort "gaa" desc) NoPlayersFound NoPlayersFound)
          (mkSort "gaa" desc))).
Proof.
  apply (sortAndRerenderTable_ordered
           (mkPage [adams; cole] (mkSort "gaa" desc) NoPlayersFound NoPlayersFound)
           (mkSort "gaa" desc)).
  apply stat_key_gaa.
Defined.
